(** * Verification of the battle-assignment and progress logic of
    [src/src/CSVPairwiseDemo.tsx] (Who Dance Better pairwise UI).

    Shallow embedding conventions:
    - a JavaScript string is the list of its UTF-16 code units ([list Z]);
      [charCodeAt i] is the [i]-th element;
    - a JavaScript number that the code can turn into [NaN] is a [jsnum];
      integer arithmetic that stays below 2^53 in magnitude is exact and is
      written on [Z]; an addition that can leave that range is rounded to
      the nearest double ([round53]);
    - a JavaScript [Record<string, T>] built from JSON or object spread is a
      stdpp [gmap] keyed by strings; a record that is grown key by key and
      whose key order is observed ([byVid], [byD], a [Map]) is an
      association list kept in insertion order. Keys that collide with
      [Object.prototype] members ("toString", "__proto__", ...) are outside
      the embedding. *)

From Stdlib Require Import ZArith Lia List String Ascii Bool QArith Sorted.
From stdpp Require Import base list gmap.
Import ListNotations.

Open Scope Z_scope.

(** ** JavaScript strings and numbers *)

Abbreviation jsstr := (list Z).

(** A string literal of the source, as code units. *)
Definition lit (s : string) : jsstr :=
  map (fun a => Z.of_nat (nat_of_ascii a)) (list_ascii_of_string s).

Definition jsstr_eqb (a b : jsstr) : bool :=
  bool_decide (a = b).

(** [ToInt32]: reduce modulo 2^32 into the signed range. *)
Definition toInt32 (z : Z) : Z :=
  let r := z mod 2 ^ 32 in
  if 2 ^ 31 <=? r then r - 2 ^ 32 else r.

(** A JavaScript number: an (integral) value or [NaN]. *)
Inductive jsnum : Type :=
| Num (z : Z)
| NaN.

(** [n % m] on numbers: truncated remainder, [NaN] when [m = 0]. *)
Definition js_rem (n m : jsnum) : jsnum :=
  match n, m with
  | Num a, Num b => if b =? 0 then NaN else Num (Z.rem a b)
  | _, _ => NaN
  end.

(** An integer rounded to the nearest double (binary64, ties to even):
    exact below 2^53 in magnitude; in the binade [[2^k, 2^(k+1))] the
    doubles are spaced [2^(k-52)] apart. Overflow to [Infinity] is not
    represented: no sum of this file comes near 2^1024. *)
Definition round53 (x : Z) : Z :=
  let e := Z.log2 (Z.abs x) - 52 in
  if e <=? 0 then x
  else
    let q := x / 2 ^ e in
    let r := x mod 2 ^ e in
    let half := 2 ^ (e - 1) in
    if r <? half then q * 2 ^ e
    else if half <? r then (q + 1) * 2 ^ e
    else if Z.even q then q * 2 ^ e else (q + 1) * 2 ^ e.

(** [n + m] on numbers: the exact sum rounded to a double. *)
Definition js_add (n m : jsnum) : jsnum :=
  match n, m with
  | Num a, Num b => Num (round53 (a + b))
  | _, _ => NaN
  end.

(** ** Hashing and QC assignment (lines 105-125) *)

(** One loop iteration [h = ((h << 5) + h) + s.charCodeAt(i)]: the shift
    converts [h] to int32 and yields an int32; [h] itself is a double that
    is never reduced, so both additions round. (Once [|h|] passes 2^86 the
    added int32 and code unit are below half a spacing and [h] stays put,
    so it never overflows.) *)
Definition djb2_step (h c : Z) : Z :=
  round53 (round53 (toInt32 (Z.shiftl (toInt32 h) 5) + h) + c).


Definition hashStrDJB2 (s : jsstr) : Z :=
  toInt32 (fold_left djb2_step s 5381).

(** [function mod(n, m) { return ((n % m) + m) % m; }] *)
Definition mod_ (n m : jsnum) : jsnum :=
  js_rem (js_add (js_rem n m) m) m.

Definition OWNER_COUNT : Z := 4.

(** [QC_OVERLAP_RATE = 0.5]; [bucket = mod(h, 10000) / 10000] is compared
    with it. For an integer [x] in [0, 9999], [x / 10000 < 0.5] holds in
    double arithmetic exactly when [x < 5000]. *)
Definition QC_OVERLAP_THRESHOLD : Z := 5000.

Definition bucket_below (b : jsnum) : bool :=
  match b with
  | Num x => x <? QC_OVERLAP_THRESHOLD
  | NaN => false
  end.

(** [qcAssigneesForBattle], with the pool size [OWNER_COUNT] as a
    parameter [n]; the program uses [n = OWNER_COUNT]. *)
Definition qcAssigneesForBattleN (n : Z) (videoId salt : jsstr) : list jsnum :=
  let primary :=
    mod_ (Num (hashStrDJB2 (lit "qc:pri:" ++ videoId ++ lit ":" ++ salt))) (Num n) in
  let secShift :=
    js_add (Num 1)
      (mod_ (Num (hashStrDJB2 (lit "qc:sec:" ++ videoId ++ lit ":" ++ salt))) (Num (n - 1))) in
  let secondary := js_rem (js_add primary secShift) (Num n) in
  let bucket :=
    mod_ (Num (hashStrDJB2 (lit "qc:over:" ++ videoId ++ lit ":" ++ salt))) (Num 10000) in
  let includeSecondary := bucket_below bucket in
  if includeSecondary then [primary; secondary] else [primary].

Definition qcAssigneesForBattle (videoId salt : jsstr) : list jsnum :=
  qcAssigneesForBattleN OWNER_COUNT videoId salt.

(** The spec's reading of the primary slot: the primary hash reduced
    (non-negatively) modulo the pool size. *)
Definition primary_slot (videoId salt : jsstr) : Z :=
  hashStrDJB2 (lit "qc:pri:" ++ videoId ++ lit ":" ++ salt) mod OWNER_COUNT.



(** ** Data model (lines 43-79) *)

Record Unit := mkUnit {
  unit_id : jsstr;
  dancer : option jsstr;
  dancerId : option jsstr;
  videoId : option jsstr;
  unit_src : jsstr
}.

Record DancerGroup := mkDancerGroup {
  dancerKey : jsstr;
  units : list Unit
}.

(** [dancers: [DancerGroup, DancerGroup]]: exactly two groups by type. *)
Record Battle := mkBattle {
  battle_videoId : jsstr;
  dancers : DancerGroup * DancerGroup
}.

Record WinnerDecision := mkWinnerDecision {
  winnerDancerKey : jsstr;
  decidedAt : Z
}.

Record User := mkUser {
  user_id : jsstr;
  user_name : jsstr;
  user_role : jsstr;
  user_index : Z
}.

(** A progress file as [JSON.parse] returns it: every field may be
    missing. [gt] / [qc] are [None] when absent or not an object. *)
Record ProgressFile := mkProgressFile {
  pf_format : option jsstr;
  pf_dataset : option jsstr;
  pf_user : option User;
  pf_salt : option jsstr;
  pf_gt : option (gmap jsstr WinnerDecision);
  pf_qc : option (gmap jsstr WinnerDecision);
  pf_createdAt : option Z;
  pf_updatedAt : option Z
}.

(** Outcome of a [try] block: its value, or the message of the [Error]
    thrown. *)
Inductive result (A : Type) : Type :=
| Ok (a : A)
| Err (msg : jsstr).
Arguments Ok {A} a.
Arguments Err {A} msg.

(** ** Labeling session: export and import of progress (lines 381-531) *)

Inductive StorageKey := SK_gt | SK_qc.

(** The props of the labeling session ([salt = dataset]). *)
Record SessionConfig := mkSessionConfig {
  cfg_dataset : jsstr;
  cfg_user : User;
  cfg_battles : list Battle;
  cfg_storageKey : StorageKey;
  cfg_fileFormat : jsstr
}.

(** The session state touched by export and import: the decision map
    ([map] / [setMap]), [cursor] and [dirty]. *)
Record Session := mkSession {
  s_map : gmap jsstr WinnerDecision;
  s_cursor : Z;
  s_dirty : bool
}.

(** [exportProgress] at time [now]: the payload written by [downloadJSON]
    and the state after [setDirty(false)]. *)
Definition exportProgress (cfg : SessionConfig) (st : Session) (now : Z)
  : ProgressFile * Session :=
  let payload :=
    match cfg_storageKey cfg with
    | SK_gt =>
        mkProgressFile (Some (cfg_fileFormat cfg)) (Some (cfg_dataset cfg))
          (Some (cfg_user cfg)) (Some (cfg_dataset cfg)) (Some (s_map st)) None
          (Some now) (Some now)
    | SK_qc =>
        mkProgressFile (Some (cfg_fileFormat cfg)) (Some (cfg_dataset cfg))
          (Some (cfg_user cfg)) (Some (cfg_dataset cfg)) None (Some (s_map st))
          (Some now) (Some now)
    end in
  (payload, mkSession (s_map st) (s_cursor st) false).

(** Reading back a file written by [downloadJSON]: [JSON.parse] of
    [JSON.stringify] gives the same strings, integers and objects. *)
Definition readJSONFile (written : ProgressFile) : option ProgressFile :=
  Some written.

(** [battles.findIndex(pred)]: the first index satisfying [pred], or -1. *)
Fixpoint findIndex {A} (pred : A -> bool) (l : list A) : Z :=
  match l with
  | [] => -1
  | x :: l' =>
      if pred x then 0
      else let i := findIndex pred l' in if i <? 0 then -1 else i + 1
  end.

Definition msg_bad_format : jsstr := lit "Invalid progress format.".
Definition msg_bad_dataset : jsstr := lit "Progress file does not match this dataset.".
Definition msg_bad_account : jsstr := lit "Progress file belongs to a different account.".
Definition msg_bad_payload : jsstr := lit "Bad progress file payload.".
Definition msg_loaded : jsstr := lit "Progress loaded.".
Definition msg_import_failed : jsstr := lit "Failed to import progress: ".

(** The validating part of the [try] block of [importProgress]. *)
Definition importProgress_checks (cfg : SessionConfig) (json : option ProgressFile)
  : result (gmap jsstr WinnerDecision) :=
  match json with
  | None => Err msg_bad_format
  | Some j =>
      if negb (bool_decide (pf_format j = Some (cfg_fileFormat cfg))) then Err msg_bad_format
      else if negb (bool_decide (pf_dataset j = Some (cfg_dataset cfg))) then Err msg_bad_dataset
      else if negb (bool_decide (option_map user_id (pf_user j) = Some (user_id (cfg_user cfg))))
      then Err msg_bad_account
      else
        let incoming := match cfg_storageKey cfg with SK_gt => pf_gt j | SK_qc => pf_qc j end in
        match incoming with
        | None => Err msg_bad_payload
        | Some m => Ok m
        end
  end.

(** [importProgress]: the new session state and the text of the alert. *)
Definition importProgress (cfg : SessionConfig) (json : option ProgressFile) (st : Session)
  : Session * jsstr :=
  match importProgress_checks cfg json with
  | Ok incoming =>
      let firstUnlabeled :=
        findIndex (fun b => negb (bool_decide (is_Some (incoming !! battle_videoId b))))
          (cfg_battles cfg) in
      (mkSession incoming (if 0 <=? firstUnlabeled then firstUnlabeled else 0) false,
       msg_loaded)
  | Err m => (st, msg_import_failed ++ m)
  end.

(** ** Battle construction (lines 1115-1150) *)

(** JavaScript truthiness of an optional string: missing and "" are
    falsy. *)
Definition truthy (o : option jsstr) : bool :=
  match o with
  | Some (_ :: _) => true
  | _ => false
  end.

(** [(g[k] ||= []).push(v)] on a record grown key by key: the keys are
    kept in insertion order. *)
Fixpoint group_push {V} (k : jsstr) (v : V) (g : list (jsstr * list V))
  : list (jsstr * list V) :=
  match g with
  | [] => [(k, [v])]
  | (k', vs) :: g' =>
      if bool_decide (k = k') then (k', vs ++ [v]) :: g'
      else (k', vs) :: group_push k v g'
  end.

(** [g[k]] on such a record. *)
Fixpoint group_get {V} (k : jsstr) (g : list (jsstr * list V)) : option (list V) :=
  match g with
  | [] => None
  | (k', vs) :: g' => if bool_decide (k = k') then Some vs else group_get k g'
  end.

(** The default order of [Array.prototype.sort] on strings: lexicographic
    on UTF-16 code units. *)
Fixpoint str_lt (a b : jsstr) : bool :=
  match a, b with
  | [], [] => false
  | [], _ :: _ => true
  | _ :: _, [] => false
  | x :: a', y :: b' => if x <? y then true else if y <? x then false else str_lt a' b'
  end.

(** A stable sort for that order (all stable sorts agree). *)
Fixpoint sort_insert (x : jsstr) (l : list jsstr) : list jsstr :=
  match l with
  | [] => [x]
  | y :: l' => if str_lt x y then x :: l else y :: sort_insert x l'
  end.

Definition js_sort (l : list jsstr) : list jsstr :=
  fold_left (fun acc x => sort_insert x acc) l [].

(** [const byVid = {}; for (const u of units) { if (!u.videoId) continue;
    (byVid[u.videoId] ||= []).push(u); }] *)
Definition group_by_video (us : list Unit) : list (jsstr * list Unit) :=
  fold_left
    (fun acc u =>
       match videoId u with
       | Some vid => if truthy (Some vid) then group_push vid u acc else acc
       | None => acc
       end)
    us [].

(** [const dk = u.dancerId || u.dancer || u.id] *)
Definition dancer_key (u : Unit) : jsstr :=
  if truthy (dancerId u) then default [] (dancerId u)
  else if truthy (dancer u) then default [] (dancer u)
  else unit_id u.

(** [byD] for the units [arr] of one video. *)
Definition group_by_dancer (arr : list Unit) : list (jsstr * list Unit) :=
  fold_left (fun acc u => group_push (dancer_key u) u acc) arr [].

(** The body of the loop over [vids] for one video: [None] is the
    [invalid++; continue] branch. *)
Definition battle_of (byVid : list (jsstr * list Unit)) (vid : jsstr) : option Battle :=
  let arr := default [] (group_get vid byVid) in
  let byD := group_by_dancer arr in
  let keys := map fst byD in
  if negb (length keys =? 2)%nat then None
  else
    let sorted := js_sort keys in
    let k0 := nth 0 sorted [] in
    let k1 := nth 1 sorted [] in
    Some (mkBattle vid
            (mkDancerGroup k0 (default [] (group_get k0 byD)),
             mkDancerGroup k1 (default [] (group_get k1 byD)))).

Definition battle_step (byVid : list (jsstr * list Unit))
  (acc : list Battle * Z) (vid : jsstr) : list Battle * Z :=
  let '(out, invalid) := acc in
  match battle_of byVid vid with
  | None => (out, invalid + 1)
  | Some b => (out ++ [b], invalid)
  end.

(** The [useMemo] computing [{ battles, invalidBattleCount }]. *)
Definition buildBattles (us : list Unit) : list Battle * Z :=
  let byVid := group_by_video us in
  let vids := js_sort (map fst byVid) in
  fold_left (battle_step byVid) vids ([], 0).

Definition jsnum_eqb (a b : jsnum) : bool :=
  match a, b with
  | Num x, Num y => x =? y
  | _, _ => false
  end.

(** [qcAssignedBattles] (lines 1153-1157), with [salt = DATA_CSV_URL]. *)
Definition qcAssignedBattles (salt : jsstr) (battles : list Battle) (u : User) : list Battle :=
  if negb (bool_decide (user_role u = lit "annotator")) then []
  else filter (fun b => existsb (jsnum_eqb (Num (user_index u)))
                           (qcAssigneesForBattle (battle_videoId b) salt)) battles.

(** The dancer keys of one video, in [Object.keys(byD)] order. *)
Definition dancer_keys_of (byVid : list (jsstr * list Unit)) (vid : jsstr) : list jsstr :=
  map fst (group_by_dancer (default [] (group_get vid byVid))).

(** ** Finalize tab: GT coverage and label export (lines 736-744, 869-931) *)

(** [if (gtMap[b.videoId]) c++] over [battles]. *)
Definition gtDone (battles : list Battle) (gtMap : gmap jsstr WinnerDecision) : nat :=
  length (filter (fun b => bool_decide (is_Some (gtMap !! battle_videoId b))) battles).

Definition gtComplete (battles : list Battle) (gtMap : gmap jsstr WinnerDecision) : bool :=
  (0 <? length battles)%nat && (gtDone battles gtMap =? length battles)%nat.

Record LabelRow := mkLabelRow {
  lr_video_id : jsstr;
  lr_winner_dancer : jsstr;
  lr_loser_dancer : jsstr;
  lr_winner_unit_id : jsstr;
  lr_loser_unit_id : jsstr;
  lr_score : Z;
  lr_source : jsstr
}.

Record BattleRow := mkBattleRow {
  br_video_id : jsstr;
  br_winner_dancer : jsstr;
  br_loser_dancer : jsstr;
  br_source : jsstr
}.

(** What [exportLabelsFromGT] does: refuse with an alert, or download the
    unit-level rows and the battle rows. *)
Inductive ExportOutcome :=
| Refused (alert : jsstr)
| Exported (labels : list LabelRow) (battleRows : list BattleRow).

Definition msg_gt_incomplete : jsstr :=
  lit "GT is not complete yet. Please finish GT for all battles first.".

(** The body of the loop over [battles]: the rows pushed for one battle. *)
Definition gt_battle_rows (gtMap : gmap jsstr WinnerDecision) (b : Battle)
  : list LabelRow * list BattleRow :=
  let vid := battle_videoId b in
  match gtMap !! vid with
  | None => ([], [])
  | Some gt =>
      let d0 := fst (dancers b) in
      let d1 := snd (dancers b) in
      let winnerKey := winnerDancerKey gt in
      let loserKey := if bool_decide (winnerKey = dancerKey d0) then dancerKey d1 else dancerKey d0 in
      let winnerUnits := if bool_decide (winnerKey = dancerKey d0) then units d0 else units d1 in
      let loserUnits := if bool_decide (loserKey = dancerKey d0) then units d0 else units d1 in
      (flat_map (fun wu =>
         map (fun lu => mkLabelRow vid winnerKey loserKey (unit_id wu) (unit_id lu) 2 (lit "gt"))
           loserUnits) winnerUnits,
       [mkBattleRow vid winnerKey loserKey (lit "gt")])
  end.

Definition exportLabelsFromGT (battles : list Battle) (gtMap : gmap jsstr WinnerDecision)
  : ExportOutcome :=
  if negb (gtComplete battles gtMap) then Refused msg_gt_incomplete
  else
    let '(rows, battleRows) :=
      fold_left (fun '(rows, battleRows) b =>
                   let '(r, br) := gt_battle_rows gtMap b in (rows ++ r, battleRows ++ br))
        battles ([], []) in
    Exported rows battleRows.

(** The spec's reading of a decided battle: the winning group is the one
    whose key is the winner key, the losing group is the other one. *)
Definition winning_losing (b : Battle) (w : jsstr) : DancerGroup * DancerGroup :=
  if bool_decide (w = dancerKey (fst (dancers b))) then (fst (dancers b), snd (dancers b))
  else (snd (dancers b), fst (dancers b)).

(** The spec's derived records of a decided battle: one per (winning unit,
    losing unit) pair, with score 2. *)
Definition derived_records (b : Battle) (w : jsstr) : list LabelRow :=
  let '(wg, lg) := winning_losing b w in
  map (fun p => mkLabelRow (battle_videoId b) (dancerKey wg) (dancerKey lg)
                  (unit_id (fst p)) (unit_id (snd p)) 2 (lit "gt"))
    (list_prod (units wg) (units lg)).

(** ** Finalize tab: imported QC files and accuracy against GT
    (lines 728, 776-833) *)

(** A QC progress file as accepted by [importQCFiles] ([json as
    QCProgressFile]); [qc] is [None] when absent ([f.qc || {}]). *)
Record QCProgressFile := mkQCProgressFile {
  qcf_format : option jsstr;
  qcf_dataset : option jsstr;
  qcf_user : User;
  qcf_salt : option jsstr;
  qcf_qc : option (gmap jsstr WinnerDecision)
}.

Record QcMetric := mkQcMetric {
  qm_userId : jsstr;
  qm_labeled : nat;
  qm_comparable : nat;
  qm_correct : nat;
  qm_accuracy : option Q
}.

(** The loop [for (const [vid, dec] of Object.entries(qc))]: the pair
    [(comparable, correct)]. *)
Definition qc_counts (gtMap qc : gmap jsstr WinnerDecision) : nat * nat :=
  fold_left
    (fun '(comparable, correct) '(vid, dec) =>
       match gtMap !! vid with
       | None => (comparable, correct)
       | Some gt =>
           (S comparable,
            if bool_decide (winnerDancerKey gt = winnerDancerKey dec) then S correct else correct)
       end)
    (map_to_list qc) (0%nat, 0%nat).

(** One entry of [qcMetrics]; [correct / comparable] is the exact quotient
    (the double the code computes is its rounding). *)
Definition qcMetric (gtMap : gmap jsstr WinnerDecision) (f : QCProgressFile) : QcMetric :=
  let qc := default ∅ (qcf_qc f) in
  let labeled := size qc in
  let '(comparable, correct) := qc_counts gtMap qc in
  mkQcMetric (user_id (qcf_user f)) labeled comparable correct
    (if (0 <? comparable)%nat
     then Some (inject_Z (Z.of_nat correct) / inject_Z (Z.of_nat comparable))%Q
     else None).

Definition qcMetrics (qcFiles : list QCProgressFile) (gtMap : gmap jsstr WinnerDecision)
  : list QcMetric :=
  map (qcMetric gtMap) qcFiles.

(** [byUser.set(k, v)] on a JavaScript [Map]: an existing key keeps its
    position and gets the new value; a new key goes last. *)
Fixpoint map_set {V} (k : jsstr) (v : V) (m : list (jsstr * V)) : list (jsstr * V) :=
  match m with
  | [] => [(k, v)]
  | (k', v') :: m' =>
      if bool_decide (k = k') then (k', v) :: m' else (k', v') :: map_set k v m'
  end.

(** [Array.prototype.sort] with the comparator [cmp]: a stable sort (all
    stable sorts agree on a consistent comparator). *)
Fixpoint insert_by {A} (cmp : A -> A -> Z) (x : A) (l : list A) : list A :=
  match l with
  | [] => [x]
  | y :: l' => if cmp x y <? 0 then x :: l else y :: insert_by cmp x l'
  end.

Definition sort_by {A} (cmp : A -> A -> Z) (l : list A) : list A :=
  fold_left (fun acc x => insert_by cmp x acc) l [].

(** The files of one [importQCFiles] call that pass the format and dataset
    checks, in order ([loaded]). A file that fails them only raises an
    alert. *)
Definition qc_loaded (dataset : jsstr) (files : list (option QCProgressFile))
  : list QCProgressFile :=
  omap (fun json =>
          match json with
          | None => None
          | Some f =>
              if negb (bool_decide (qcf_format f = Some (lit "qc-progress-v1"))) then None
              else if negb (bool_decide (qcf_dataset f = Some dataset)) then None
              else Some f
          end) files.

(** [importQCFiles]: the new [qcFiles] from the previous one. [localeCompare]
    is the host's collation, left abstract. *)
Definition importQCFiles (localeCompare : jsstr -> jsstr -> Z) (dataset : jsstr)
  (files : list (option QCProgressFile)) (prev : list QCProgressFile)
  : list QCProgressFile :=
  let loaded := qc_loaded dataset files in
  if (length loaded =? 0)%nat then prev
  else
    let byUser0 := fold_left (fun m p => map_set (user_id (qcf_user p)) p m) prev [] in
    let byUser := fold_left (fun m n => map_set (user_id (qcf_user n)) n m) loaded byUser0 in
    sort_by (fun a b => localeCompare (user_id (qcf_user a)) (user_id (qcf_user b)))
      (map snd byUser).

(** [qcFiles] after a sequence of imports, starting from [[]]. *)
Definition qcFiles_after (localeCompare : jsstr -> jsstr -> Z) (dataset : jsstr)
  (imports : list (list (option QCProgressFile))) : list QCProgressFile :=
  fold_left (fun prev files => importQCFiles localeCompare dataset files prev) imports [].

(** ** Accounts and sign-in (lines 19-32, 205-215) *)

Record Account := mkAccount {
  acc_id : jsstr;
  acc_name : jsstr;
  acc_role : jsstr;
  acc_index : Z;
  acc_passcode : jsstr
}.

Definition USERS : list Account :=
  [mkAccount (lit "GT") (lit "GT Account") (lit "gt") (-1) (lit "0000");
   mkAccount (lit "A") (lit "Annotator A") (lit "annotator") 0 (lit "1111");
   mkAccount (lit "B") (lit "Annotator B") (lit "annotator") 1 (lit "2222");
   mkAccount (lit "C") (lit "Annotator C") (lit "annotator") 2 (lit "3333");
   mkAccount (lit "D") (lit "Annotator D") (lit "annotator") 3 (lit "4444")].

(** [{ id: user.id, name: user.name, role: user.role, index: user.index }] *)
Definition account_user (a : Account) : User :=
  mkUser (acc_id a) (acc_name a) (acc_role a) (acc_index a).

Definition msg_invalid_passcode : jsstr := lit "Invalid passcode.".

(** [signIn] of the [SignIn] form: [Ok u] is [onSignedIn(u)], [Err m] is
    [setErr(m)]. [None] is the [undefined] that [USERS.find(...)!] would
    give for an id outside [UserId], which the select excludes. *)
Definition signIn (selectedId pw : jsstr) : option (result User) :=
  match find (fun a => bool_decide (acc_id a = selectedId)) USERS with
  | None => None
  | Some a =>
      Some (if negb (bool_decide (pw = acc_passcode a)) then Err msg_invalid_passcode
            else Ok (account_user a))
  end.

(** [qcSharedCount] (lines 1159-1167). *)
Definition qcSharedCount (salt : jsstr) (battles : list Battle) (u : User) : nat :=
  if negb (bool_decide (user_role u = lit "annotator")) then 0%nat
  else length (filter (fun b => (1 < length (qcAssigneesForBattle (battle_videoId b) salt))%nat)
                 (qcAssignedBattles salt battles u)).

(** Structural equality of the data records (used to speak about list
    membership of battles). *)
#[global] Instance Unit_eq_dec : EqDecision Unit.
Proof. solve_decision. Defined.
#[global] Instance DancerGroup_eq_dec : EqDecision DancerGroup.
Proof. solve_decision. Defined.
#[global] Instance Battle_eq_dec : EqDecision Battle.
Proof. solve_decision. Defined.
#[global] Instance Account_eq_dec : EqDecision Account.
Proof. solve_decision. Defined.

(** ** Navigation and decisions of [WinnerLabelingPanel] (lines 424-491)

    [canSet] is always true in the source ([enforceWatch = false]) and is
    left out; [Date.now()] is the parameter [now]. *)

Definition clampCursor (len cursor : Z) : Z := Z.max 0 (Z.min cursor (len - 1)).

(** [current]: the battle under the clamped cursor, or [null] when there is
    no battle. *)
Definition current (cfg : SessionConfig) (st : Session) : option Battle :=
  let bs := cfg_battles cfg in
  if (length bs =? 0)%nat then None
  else bs !! Z.to_nat (clampCursor (Z.of_nat (length bs)) (s_cursor st)).

Definition goPrev (st : Session) : Session :=
  mkSession (s_map st) (Z.max 0 (s_cursor st - 1)) (s_dirty st).

Definition goNext (cfg : SessionConfig) (st : Session) : Session :=
  mkSession (s_map st) (Z.min (Z.of_nat (length (cfg_battles cfg)) - 1) (s_cursor st + 1))
    (s_dirty st).

(** The [for (let step = ...; step <= battles.length; step++)] loop of
    [goNextUnlabeled]; [fuel] counts the remaining iterations and the result
    is the index passed to [setCursor], if any.  The index is always in
    range, so the [None] branch of the lookup is never taken. *)
Fixpoint scanUnlabeled (bs : list Battle) (m : gmap jsstr WinnerDecision)
    (start step : Z) (fuel : nat) : option Z :=
  match fuel with
  | O => None
  | S f =>
      let i := Z.rem (start + step) (Z.of_nat (length bs)) in
      match bs !! Z.to_nat i with
      | Some b =>
          if bool_decide (is_Some (m !! battle_videoId b))
          then scanUnlabeled bs m start (step + 1) f
          else Some i
      | None => None
      end
  end.

Definition goNextUnlabeled_target (bs : list Battle) (m : gmap jsstr WinnerDecision)
    (cursor : Z) : option Z :=
  if (length bs =? 0)%nat then None
  else scanUnlabeled bs m (clampCursor (Z.of_nat (length bs)) cursor) 1 (length bs).

Definition goNextUnlabeled (cfg : SessionConfig) (st : Session) : Session :=
  match goNextUnlabeled_target (cfg_battles cfg) (s_map st) (s_cursor st) with
  | Some i => mkSession (s_map st) i (s_dirty st)
  | None => st
  end.

(** [side : 0 | 1] *)
Inductive Side := Side0 | Side1.

Definition side_group (side : Side) (b : Battle) : DancerGroup :=
  match side with Side0 => fst (dancers b) | Side1 => snd (dancers b) end.

(** [setWinner]: the new map is [{...map, [vid]: decision}]; the call to
    [goNextUnlabeled] that follows runs in the same closure and so sees the
    map and cursor of before the click. *)
Definition setWinner (cfg : SessionConfig) (side : Side) (now : Z) (st : Session) : Session :=
  match current cfg st with
  | None => st
  | Some b =>
      let winner := dancerKey (side_group side b) in
      let m' := <[battle_videoId b := mkWinnerDecision winner now]> (s_map st) in
      let c' := match goNextUnlabeled_target (cfg_battles cfg) (s_map st) (s_cursor st) with
                | Some i => i
                | None => s_cursor st
                end in
      mkSession m' c' true
  end.

Definition clearWinner (cfg : SessionConfig) (st : Session) : Session :=
  match current cfg st with
  | None => st
  | Some b => mkSession (delete (battle_videoId b) (s_map st)) (s_cursor st) true
  end.

(** ** GT progress files of [FinalizeTab] (lines 747-775)

    [importGT] stores [json.gt || {}]. The model covers files whose [gt]
    field is missing, falsy or an object of decisions; a truthy [gt] that is
    not an object (which the source would store as the GT map) has no
    representation in [ProgressFile] and is outside the model: [pf_gt] is
    [None] for it, as for a missing field. *)

Definition GT_FORMAT : jsstr := lit "gt-progress-v2".
Definition gt_account_user : User := mkUser (lit "GT") (lit "GT Account") (lit "gt") (-1).

Definition msg_gt_bad_format : jsstr := lit "Invalid GT progress format.".
Definition msg_gt_bad_dataset : jsstr := lit "Dataset mismatch.".
Definition msg_gt_loaded : jsstr := lit "GT progress loaded.".
Definition msg_gt_import_failed : jsstr := lit "Failed to import GT: ".

(** [exportGT] at time [now]: the payload given to [downloadJSON]. *)
Definition exportGT (dataset : jsstr) (gtMap : gmap jsstr WinnerDecision) (now : Z) : ProgressFile :=
  mkProgressFile (Some GT_FORMAT) (Some dataset) (Some gt_account_user) (Some dataset)
    (Some gtMap) None (Some now) (Some now).

(** [importGT]: the GT map after the call and the text of the alert. *)
Definition importGT (dataset : jsstr) (json : option ProgressFile)
    (gtMap : gmap jsstr WinnerDecision) : gmap jsstr WinnerDecision * jsstr :=
  match json with
  | None => (gtMap, msg_gt_import_failed ++ msg_gt_bad_format)
  | Some j =>
      if negb (bool_decide (pf_format j = Some GT_FORMAT))
      then (gtMap, msg_gt_import_failed ++ msg_gt_bad_format)
      else if negb (bool_decide (pf_dataset j = Some dataset))
      then (gtMap, msg_gt_import_failed ++ msg_gt_bad_dataset)
      else (default ∅ (pf_gt j), msg_gt_loaded)
  end.

(** ** CSV rows (lines 1079-1111)

    A row of [Papa.parse] with [header: true]: column name to cell text.
    [resolveClipUrl] (regular expressions and URI encoding) is a parameter;
    [rawSrc] is returned next to the [Unit]. *)

Abbreviation CSVRow := (gmap jsstr jsstr).

(** [row?.k1 ?? row?.k2 ?? ...]: the first column present, even if empty. *)
Fixpoint first_present (row : CSVRow) (keys : list jsstr) : option jsstr :=
  match keys with
  | [] => None
  | k :: ks => match row !! k with Some v => Some v | None => first_present row ks end
  end.

(** [x ? String(x) : undefined] for a string or missing cell. *)
Definition nonempty_opt (x : option jsstr) : option jsstr :=
  match x with Some v => if truthy (Some v) then Some v else None | None => None end.

Definition fromCSVRow (resolveClipUrl : jsstr -> jsstr) (row : CSVRow) : option (Unit * jsstr) :=
  let unit_id := first_present row [lit "unit_id"; lit "UNIT_ID"; lit "UnitId"] in
  let video_id := first_present row [lit "video_id"; lit "VIDEO_ID"; lit "VideoId"] in
  let dancer_id := first_present row [lit "dancer_id"; lit "DANCER_ID"; lit "DancerId"] in
  let clip_path :=
    match first_present row [lit "clip_path"; lit "CLIP_PATH"; lit "ClipPath"] with
    | Some c => c
    | None => if truthy unit_id then default [] unit_id ++ lit ".mp4" else []
    end in
  if negb (truthy unit_id) || negb (truthy (Some clip_path)) then None
  else
    let raw := clip_path in
    Some (mkUnit (default [] unit_id) None (nonempty_opt dancer_id) (nonempty_opt video_id)
            (resolveClipUrl raw), raw).

(** [rows.map(fromCSVRow).filter(Boolean)]. *)
Definition parseRows (resolveClipUrl : jsstr -> jsstr) (rows : list CSVRow) : list Unit :=
  omap (fun r => fst <$> fromCSVRow resolveClipUrl r) rows.

(** ** [pairKey] (lines 127-129) *)

Definition pairKey (a b : jsstr) : jsstr :=
  if str_lt a b then a ++ lit "|" ++ b else b ++ lit "|" ++ a.

(** ** Pairwise agreement of QC files (lines 836-866) *)

Record AgreementPair := mkAgreementPair {
  ap_a : jsstr;
  ap_b : jsstr;
  ap_both : nat;
  ap_agree : nat;
  ap_rate : option Q
}.

(** The loop over [Object.keys(qa)]: the pair [(both, agree)]. *)
Definition agreement_counts (qa qb : gmap jsstr WinnerDecision) : nat * nat :=
  fold_left
    (fun '(both, agree) vid =>
       let wa := winnerDancerKey <$> qa !! vid in
       let wb := winnerDancerKey <$> qb !! vid in
       if negb (truthy wa) || negb (truthy wb) then (both, agree)
       else (S both, if bool_decide (wa = wb) then S agree else agree))
    (map fst (map_to_list qa)) (0%nat, 0%nat).

(** The index pairs [i < j] of the nested loops, in loop order. *)
Fixpoint index_pairs {A} (l : list A) : list (A * A) :=
  match l with
  | [] => []
  | a :: l' => map (fun b => (a, b)) l' ++ index_pairs l'
  end.

Definition qcAgreement (qcFiles : list QCProgressFile) : list AgreementPair :=
  let ids := js_sort (map (fun f => user_id (qcf_user f)) qcFiles) in
  let fileById id := find (fun f => bool_decide (user_id (qcf_user f) = id)) qcFiles in
  omap (fun '(a, b) =>
          match fileById a, fileById b with
          | Some fa, Some fb =>
              let qa := default ∅ (qcf_qc fa) in
              let qb := default ∅ (qcf_qc fb) in
              let '(both, agree) := agreement_counts qa qb in
              Some (mkAgreementPair a b both agree
                      (if (0 <? both)%nat
                       then Some (inject_Z (Z.of_nat agree) / inject_Z (Z.of_nat both))%Q
                       else None))
          | _, _ => None
          end)
    (index_pairs ids).

(** ** Concrete inputs used by the examples below *)

Definition demo_user : User := mkUser (lit "A") (lit "Annotator A") (lit "annotator") 0.

Definition demo_battle (vid : string) : Battle :=
  mkBattle (lit vid)
    (mkDancerGroup (lit "d1") [mkUnit (lit "u1") None (Some (lit "d1")) (Some (lit vid)) (lit "u1.mp4")],
     mkDancerGroup (lit "d2") [mkUnit (lit "u2") None (Some (lit "d2")) (Some (lit vid)) (lit "u2.mp4")]).


Definition demo_cfg : SessionConfig :=
  mkSessionConfig (lit "/data/dancer_units.csv") demo_user
    [demo_battle "v1"; demo_battle "v2"] SK_qc (lit "qc-progress-v1").

(** ** Hashing and assignment: proofs *)

Section Djb2.

Example hash_a : hashStrDJB2 (lit "a") = 177670.
Proof. vm_compute. reflexivity. Qed.




(** A multiple of [2^k] below [2^(53+k)] in magnitude is a double. *)
Lemma round53_exact (x k : Z) :
  0 <= k -> (2 ^ k | x) -> Z.abs x < 2 ^ (53 + k) -> round53 x = x.
Proof.
  intros Hk Hd Hx. unfold round53.
  destruct (Z.leb_spec (Z.log2 (Z.abs x) - 52) 0) as [Hle|Hgt]; [reflexivity|].
  assert (Hx0 : x <> 0) by (intros ->; simpl in Hgt; lia).
  assert (Hlog : Z.log2 (Z.abs x) < 53 + k) by (apply Z.log2_lt_pow2; lia).
  set (e := Z.log2 (Z.abs x) - 52) in *.
  assert (Hde : (2 ^ e | x)).
  { eapply Z.divide_trans; [|exact Hd].
    exists (2 ^ (k - e)). rewrite <- Z.pow_add_r by lia. f_equal. lia. }
  assert (Hr : x mod 2 ^ e = 0) by (apply Z.mod_divide; [lia | exact Hde]).
  rewrite Hr.
  assert (Hh : 0 < 2 ^ (e - 1)) by (apply Z.pow_pos_nonneg; lia).
  destruct (Z.ltb_spec 0 (2 ^ (e - 1))); [|lia].
  pose proof (Z.div_mod x (2 ^ e) ltac:(lia)) as Hdm. lia.
Qed.

Lemma round53_small (x : Z) : Z.abs x < 2 ^ 53 -> round53 x = x.
Proof. intros Hx. apply (round53_exact x 0); [lia | apply Z.divide_1_l | exact Hx]. Qed.

Lemma js_add_exact (a b : Z) : Z.abs (a + b) < 2 ^ 53 -> js_add (Num a) (Num b) = Num (a + b).
Proof. intros H. unfold js_add. rewrite round53_small by exact H. reflexivity. Qed.





End Djb2.




Section Assignment.

Lemma mod_pos (h m : Z) : 0 < m -> m <= 2 ^ 52 -> mod_ (Num h) (Num m) = Num (h mod m).
Proof.
  intros Hm Hm'. unfold mod_.
  assert (Er : forall a, js_rem (Num a) (Num m) = Num (Z.rem a m))
    by (intros a; unfold js_rem; rewrite (proj2 (Z.eqb_neq m 0)) by lia; reflexivity).
  pose proof (Z.rem_bound_abs h m ltac:(lia)) as Hb.
  rewrite (Z.abs_eq m) in Hb by lia. apply Z.abs_lt in Hb.
  rewrite Er, js_add_exact by lia. rewrite Er. f_equal.
  rewrite (Z.rem_mod_nonneg (Z.rem h m + m) m) by lia.
  rewrite (Z.quot_rem' h m) at 2.
  rewrite <- Z.add_mod_idemp_r, Z.mod_same, Z.add_0_r by lia.
  replace (m * Z.quot h m + Z.rem h m) with (Z.rem h m + Z.quot h m * m) by lia.
  rewrite Z.mod_add by lia. reflexivity.
Qed.

Lemma mod_one (h : Z) : mod_ (Num h) (Num 1) = Num 0.
Proof. rewrite mod_pos by lia. rewrite Z.mod_1_r. reflexivity. Qed.

Lemma mod_zero (h : Z) : mod_ (Num h) (Num 0) = NaN.
Proof. reflexivity. Qed.

End Assignment.

(** C1: for every battle id and salt, [qcAssigneesForBattle] returns one or
    two owner slots in [0, 4); the first is the primary slot (the primary
    hash modulo 4); when a second slot is returned it differs from the
    primary one. *)
Theorem qcAssignees_owner_slots (videoId salt : jsstr) :
  0 <= primary_slot videoId salt < OWNER_COUNT /\
  (qcAssigneesForBattle videoId salt = [Num (primary_slot videoId salt)] \/
   exists s, qcAssigneesForBattle videoId salt
               = [Num (primary_slot videoId salt); Num s]
             /\ 0 <= s < OWNER_COUNT /\ s <> primary_slot videoId salt).
Proof.
  unfold qcAssigneesForBattle, qcAssigneesForBattleN, primary_slot, OWNER_COUNT.
  set (p := hashStrDJB2 (lit "qc:pri:" ++ videoId ++ lit ":" ++ salt)).
  set (q := hashStrDJB2 (lit "qc:sec:" ++ videoId ++ lit ":" ++ salt)).
  set (o := hashStrDJB2 (lit "qc:over:" ++ videoId ++ lit ":" ++ salt)).
  replace (4 - 1) with 3 by reflexivity.
  rewrite !mod_pos by lia.
  pose proof (Z.mod_pos_bound p 4 ltac:(lia)).
  pose proof (Z.mod_pos_bound q 3 ltac:(lia)).
  rewrite !js_add_exact by lia.
  split; [lia|].
  destruct (bucket_below (Num (o mod 10000))); [right | left; reflexivity].
  simpl. rewrite Z.rem_mod_nonneg by lia.
  eexists. split; [reflexivity|].
  Z.div_mod_to_equations. lia.
Qed.

(** ** Progress export and import: proofs *)

(** C3 (as stated, refuted): with no decision yet and the cursor on the
    second battle, exporting and re-importing puts the cursor back on the
    first battle. *)
Lemma export_import_cursor_moves :
  let st := mkSession ∅ 1 true in
  let '(file, st1) := exportProgress demo_cfg st 0 in
  s_cursor (fst (importProgress demo_cfg (readJSONFile file) st1)) <> s_cursor st.
Proof. vm_compute. discriminate. Qed.

(** C3 (amended): importing a file produced by [exportProgress] under the
    same session props always succeeds, restores exactly the exported
    decision map and clears the dirty flag; the cursor is not part of the
    file and is set to the first battle without a decision (0 when all are
    decided). *)
Theorem export_import_roundtrip (cfg : SessionConfig) (st st' : Session) (now : Z) :
  importProgress cfg (readJSONFile (fst (exportProgress cfg st now))) st'
  = (mkSession (s_map st)
       (let i := findIndex
                   (fun b => negb (bool_decide (is_Some (s_map st !! battle_videoId b))))
                   (cfg_battles cfg) in
        if 0 <=? i then i else 0)
       false,
     msg_loaded).
Proof.
  unfold importProgress, importProgress_checks, exportProgress, readJSONFile.
  destruct (cfg_storageKey cfg); simpl;
    rewrite !bool_decide_eq_true_2 by reflexivity; reflexivity.
Qed.

(** C4: a progress file whose format tag, dataset or [user.id] differs from
    the session's is rejected with one of the three specific messages, and
    the decision map, cursor and dirty flag are left as they were. *)
Theorem import_mismatch_rejected (cfg : SessionConfig) (j : ProgressFile) (st : Session) :
  pf_format j <> Some (cfg_fileFormat cfg) \/
  pf_dataset j <> Some (cfg_dataset cfg) \/
  option_map user_id (pf_user j) <> Some (user_id (cfg_user cfg)) ->
  exists m, importProgress cfg (Some j) st = (st, msg_import_failed ++ m) /\
            m ∈ [msg_bad_format; msg_bad_dataset; msg_bad_account].
Proof.
  intros H. unfold importProgress, importProgress_checks.
  destruct (decide (pf_format j = Some (cfg_fileFormat cfg))) as [Hf|Hf].
  - rewrite (bool_decide_eq_true_2 _ Hf). simpl.
    destruct (decide (pf_dataset j = Some (cfg_dataset cfg))) as [Hd|Hd].
    + rewrite (bool_decide_eq_true_2 _ Hd). simpl.
      destruct (decide (option_map user_id (pf_user j) = Some (user_id (cfg_user cfg))))
        as [Hu|Hu].
      * exfalso. tauto.
      * rewrite (bool_decide_eq_false_2 _ Hu). simpl.
        exists msg_bad_account. split; [reflexivity | set_solver].
    + rewrite (bool_decide_eq_false_2 _ Hd). simpl.
      exists msg_bad_dataset. split; [reflexivity | set_solver].
  - rewrite (bool_decide_eq_false_2 _ Hf). simpl.
    exists msg_bad_format. split; [reflexivity | set_solver].
Qed.

Lemma import_mismatch_rejected_witness :
  let j := mkProgressFile (Some (lit "qc-progress-v1")) (Some (lit "other.csv"))
             (Some demo_user) None None (Some ∅) None None in
  let st := mkSession ∅ 1 true in
  (pf_format j <> Some (cfg_fileFormat demo_cfg) \/
   pf_dataset j <> Some (cfg_dataset demo_cfg) \/
   option_map user_id (pf_user j) <> Some (user_id (cfg_user demo_cfg))) /\
  exists m, importProgress demo_cfg (Some j) st = (st, msg_import_failed ++ m) /\
            m ∈ [msg_bad_format; msg_bad_dataset; msg_bad_account].
Proof.
  intros j st.
  assert (H : pf_format j <> Some (cfg_fileFormat demo_cfg) \/
              pf_dataset j <> Some (cfg_dataset demo_cfg) \/
              option_map user_id (pf_user j) <> Some (user_id (cfg_user demo_cfg)))
    by (right; left; vm_compute; discriminate).
  split; [exact H | apply (import_mismatch_rejected demo_cfg j st H)].
Defined.

Example build_demo :
  buildBattles
    [mkUnit (lit "u3") None (Some (lit "d2")) (Some (lit "v1")) [];
     mkUnit (lit "u1") None (Some (lit "d1")) (Some (lit "v1")) [];
     mkUnit (lit "u2") None (Some (lit "d1")) (Some (lit "v2")) [];
     mkUnit (lit "u4") None None None []]
  = ([mkBattle (lit "v1")
        (mkDancerGroup (lit "d1") [mkUnit (lit "u1") None (Some (lit "d1")) (Some (lit "v1")) []],
         mkDancerGroup (lit "d2") [mkUnit (lit "u3") None (Some (lit "d2")) (Some (lit "v1")) []])],
     1).
Proof. vm_compute. reflexivity. Qed.

Section BattleConstruction.

Lemma str_lt_total (a b : jsstr) : str_lt a b = false -> str_lt b a = false -> a = b.
Proof.
  revert b. induction a as [|x a IH]; intros [|y b]; simpl; try easy.
  destruct (x <? y) eqn:E1; [discriminate|]. destruct (y <? x) eqn:E2; [discriminate|].
  intros H1 H2. apply Z.ltb_ge in E1, E2.
  replace (y <? x) with false in H2 by (symmetry; apply Z.ltb_ge; lia).
  replace (x <? y) with false in H2 by (symmetry; apply Z.ltb_ge; lia).
  f_equal; [lia | apply IH; assumption].
Qed.

Lemma sort_insert_perm (x : jsstr) (l : list jsstr) : sort_insert x l ≡ₚ x :: l.
Proof.
  induction l as [|y l IH]; simpl; [done|].
  destruct (str_lt x y); [done|].
  rewrite IH. apply perm_swap.
Qed.

Lemma js_sort_perm (l : list jsstr) : js_sort l ≡ₚ l.
Proof.
  unfold js_sort.
  assert (H : forall acc, fold_left (fun acc x => sort_insert x acc) l acc ≡ₚ l ++ acc).
  { induction l as [|x l IH]; intros acc; simpl; [done|].
    rewrite IH, sort_insert_perm. rewrite Permutation_middle. done. }
  rewrite H. by rewrite app_nil_r.
Qed.

Lemma group_push_keys {V} (k : jsstr) (v : V) (g : list (jsstr * list V)) :
  forall k', k' ∈ map fst (group_push k v g) -> k' = k \/ k' ∈ map fst g.
Proof.
  induction g as [|[k0 vs] g IH]; simpl; intros k' Hk.
  - set_solver.
  - case_bool_decide; simpl in *; [set_solver|].
    apply elem_of_cons in Hk as [->|Hk]; [set_solver|].
    destruct (IH k' Hk); set_solver.
Qed.

Lemma group_push_nodup {V} (k : jsstr) (v : V) (g : list (jsstr * list V)) :
  NoDup (map fst g) -> NoDup (map fst (group_push k v g)).
Proof.
  induction g as [|[k0 vs] g IH]; simpl; intros Hnd.
  - constructor; [set_solver | constructor].
  - apply NoDup_cons in Hnd as [Hn Hnd].
    case_bool_decide; simpl; constructor; auto.
    intros Hin. apply group_push_keys in Hin as [->|Hin]; auto.
Qed.

Lemma group_by_dancer_nodup (arr : list Unit) : NoDup (map fst (group_by_dancer arr)).
Proof.
  unfold group_by_dancer.
  assert (H : forall acc, NoDup (map fst acc) ->
    NoDup (map fst (fold_left (fun acc u => group_push (dancer_key u) u acc) arr acc))).
  { induction arr as [|u arr IH]; intros acc Hacc; simpl; [done|].
    apply IH, group_push_nodup, Hacc. }
  apply H. constructor.
Qed.

Lemma battle_of_some (byVid : list (jsstr * list Unit)) (vid : jsstr) (b : Battle) :
  battle_of byVid vid = Some b ->
  battle_videoId b = vid /\
  length (dancer_keys_of byVid vid) = 2%nat /\
  str_lt (dancerKey (fst (dancers b))) (dancerKey (snd (dancers b))) = true /\
  [dancerKey (fst (dancers b)); dancerKey (snd (dancers b))] ≡ₚ dancer_keys_of byVid vid.
Proof.
  unfold battle_of. fold (dancer_keys_of byVid vid).
  pose proof (group_by_dancer_nodup (default [] (group_get vid byVid))) as Hnd.
  fold (dancer_keys_of byVid vid) in Hnd.
  destruct (dancer_keys_of byVid vid) as [|k0 [|k1 [|k2 ks]]] eqn:E; simpl;
    try discriminate.
  intros Hb. injection Hb as <-. unfold js_sort. simpl.
  apply NoDup_cons in Hnd as [Hne _].
  assert (Hne' : k0 <> k1) by set_solver.
  destruct (str_lt k1 k0) eqn:E10; simpl.
  - repeat split; [exact E10 | apply perm_swap].
  - repeat split; [|done].
    destruct (str_lt k0 k1) eqn:E01; [done|].
    exfalso. apply Hne', str_lt_total; assumption.
Qed.

Lemma battle_fold (byVid : list (jsstr * list Unit)) (vids : list jsstr)
  (out : list Battle) (inv : Z) :
  fold_left (battle_step byVid) vids (out, inv)
  = (out ++ omap (battle_of byVid) vids,
     inv + Z.of_nat (length (filter (fun vid => negb (length (dancer_keys_of byVid vid) =? 2)%nat)
                                     vids))).
Proof.
  revert out inv. induction vids as [|vid vids IH]; intros out inv; simpl.
  - rewrite app_nil_r. f_equal. lia.
  - unfold battle_step at 1. destruct (battle_of byVid vid) as [b|] eqn:Eb.
    + rewrite IH. pose proof (battle_of_some _ _ _ Eb) as (_ & Hlen & _).
      rewrite filter_cons_False; [|rewrite Hlen; simpl; tauto].
      rewrite <- app_assoc. reflexivity.
    + rewrite IH.
      assert (Hlen : length (dancer_keys_of byVid vid) <> 2%nat).
      { intros Hlen. unfold battle_of in Eb. fold (dancer_keys_of byVid vid) in Eb.
        rewrite Hlen in Eb. discriminate. }
      rewrite filter_cons_True; [|apply Nat.eqb_neq in Hlen; rewrite Hlen; simpl; exact I].
      simpl. f_equal. lia.
Qed.

End BattleConstruction.

(** C8: in battle construction, the invalid-battle count is the number of
    video ids whose units form a number of dancer groups other than two; no
    battle, hence no annotator's assigned battle, carries such a video id;
    every constructed battle has exactly two dancer groups (by its type),
    which are the two groups of its video, with dancer keys in strictly
    increasing code-unit order. *)
Theorem buildBattles_valid (us : list Unit) :
  let byVid := group_by_video us in
  let battles := fst (buildBattles us) in
  snd (buildBattles us)
    = Z.of_nat (length (filter (fun vid => negb (length (dancer_keys_of byVid vid) =? 2)%nat)
                               (map fst byVid))) /\
  (forall vid, vid ∈ map fst byVid -> length (dancer_keys_of byVid vid) <> 2%nat ->
     (forall b, b ∈ battles -> battle_videoId b <> vid) /\
     (forall salt u b, b ∈ qcAssignedBattles salt battles u -> battle_videoId b <> vid)) /\
  (forall b, b ∈ battles ->
     str_lt (dancerKey (fst (dancers b))) (dancerKey (snd (dancers b))) = true /\
     [dancerKey (fst (dancers b)); dancerKey (snd (dancers b))]
       ≡ₚ dancer_keys_of byVid (battle_videoId b)).
Proof.
  intros byVid battles. unfold battles, buildBattles. fold byVid.
  rewrite battle_fold. simpl.
  assert (Hin : forall b, b ∈ omap (battle_of byVid) (js_sort (map fst byVid)) ->
            exists vid, battle_of byVid vid = Some b).
  { intros b Hb. apply list_elem_of_omap in Hb as (vid & _ & Hb). eauto. }
  split; [|split].
  - rewrite (js_sort_perm (map fst byVid)). reflexivity.
  - intros vid _ Hlen.
    assert (Hnot : forall b, b ∈ omap (battle_of byVid) (js_sort (map fst byVid)) ->
              battle_videoId b <> vid).
    { intros b Hb. destruct (Hin b Hb) as (vid' & Hb').
      pose proof (battle_of_some _ _ _ Hb') as (-> & Hlen' & _).
      intros ->. contradiction. }
    split; [exact Hnot|].
    intros salt u b Hb. apply Hnot. unfold qcAssignedBattles in Hb.
    destruct (negb _); [set_solver|].
    apply list_elem_of_filter in Hb. tauto.
  - intros b Hb. destruct (Hin b Hb) as (vid & Hb').
    pose proof (battle_of_some _ _ _ Hb') as (-> & _ & Hlt & Hperm). auto.
Qed.

Lemma group_by_video_filter (us : list Unit) (acc : list (jsstr * list Unit)) :
  fold_left
    (fun acc u =>
       match videoId u with
       | Some vid => if truthy (Some vid) then group_push vid u acc else acc
       | None => acc
       end) us acc
  = fold_left
      (fun acc u =>
         match videoId u with
         | Some vid => if truthy (Some vid) then group_push vid u acc else acc
         | None => acc
         end) (filter (fun u => truthy (videoId u)) us) acc.
Proof.
  revert acc. induction us as [|u us IH]; intros acc; [reflexivity|].
  destruct (truthy (videoId u)) eqn:E.
  - rewrite filter_cons_True by (rewrite E; exact I). simpl. rewrite IH. reflexivity.
  - rewrite filter_cons_False by (rewrite E; tauto). simpl. rewrite <- IH.
    destruct (videoId u) as [vid|]; [|reflexivity].
    destruct vid; simpl in *; [reflexivity | discriminate].
Qed.

(** C9: units whose [videoId] is missing or empty take no part in battle
    construction: dropping them leaves the battles and the invalid-battle
    count unchanged. *)
Theorem buildBattles_ignores_unkeyed (us : list Unit) :
  buildBattles us = buildBattles (filter (fun u => truthy (videoId u)) us).
Proof.
  unfold buildBattles, group_by_video. rewrite group_by_video_filter. reflexivity.
Qed.

Section GTExport.

Lemma gtDone_full (battles : list Battle) (gtMap : gmap jsstr WinnerDecision) :
  gtDone battles gtMap = length battles ->
  forall b, b ∈ battles -> is_Some (gtMap !! battle_videoId b).
Proof.
  unfold gtDone. induction battles as [|b0 bs IH]; intros Hlen b Hb;
    [apply elem_of_nil in Hb; done|].
  destruct (decide (is_Some (gtMap !! battle_videoId b0))) as [Hs|Hs].
  - rewrite filter_cons_True in Hlen by (case_bool_decide; [exact I | contradiction]).
    simpl in Hlen. apply elem_of_cons in Hb as [->|Hb]; [done|]. apply IH; [lia|done].
  - rewrite filter_cons_False in Hlen by (case_bool_decide; [contradiction | simpl; tauto]).
    pose proof (length_filter
      (fun b => bool_decide (is_Some (gtMap !! battle_videoId b))) bs). simpl in Hlen. lia.
Qed.

Lemma gtDone_all (battles : list Battle) (gtMap : gmap jsstr WinnerDecision) :
  (forall b, b ∈ battles -> is_Some (gtMap !! battle_videoId b)) ->
  gtDone battles gtMap = length battles.
Proof.
  unfold gtDone. induction battles as [|b0 bs IH]; intros Hall; [done|].
  rewrite filter_cons_True by (case_bool_decide; [exact I | apply H, Hall; set_solver]).
  simpl. f_equal. apply IH. intros b Hb. apply Hall. set_solver.
Qed.

Lemma map_list_prod {A B C} (f : A * B -> C) (l1 : list A) (l2 : list B) :
  map f (list_prod l1 l2) = flat_map (fun x => map (fun y => f (x, y)) l2) l1.
Proof.
  induction l1 as [|x l1 IH]; simpl; [done|].
  rewrite map_app, map_map, IH. reflexivity.
Qed.

Lemma gt_battle_rows_derived (gtMap : gmap jsstr WinnerDecision) (b : Battle) (g : WinnerDecision) :
  gtMap !! battle_videoId b = Some g ->
  dancerKey (fst (dancers b)) <> dancerKey (snd (dancers b)) ->
  winnerDancerKey g = dancerKey (fst (dancers b)) \/
  winnerDancerKey g = dancerKey (snd (dancers b)) ->
  fst (gt_battle_rows gtMap b) = derived_records b (winnerDancerKey g).
Proof.
  intros Hg Hne Hw. unfold gt_battle_rows, derived_records, winning_losing. rewrite Hg.
  destruct (dancers b) as [d0 d1]. simpl in *.
  destruct (decide (winnerDancerKey g = dancerKey d0)) as [E|E].
  - rewrite !(bool_decide_eq_true_2 _ E).
    rewrite (bool_decide_eq_false_2 (dancerKey d1 = dancerKey d0)) by congruence.
    simpl. rewrite map_list_prod, E. reflexivity.
  - rewrite !(bool_decide_eq_false_2 _ E).
    rewrite (bool_decide_eq_true_2 (dancerKey d0 = dancerKey d0)) by reflexivity.
    simpl. rewrite map_list_prod.
    destruct Hw as [Hw|Hw]; [contradiction|]. rewrite Hw. reflexivity.
Qed.

Lemma gt_export_fold (gtMap : gmap jsstr WinnerDecision) (battles : list Battle)
  (rows : list LabelRow) (brs : list BattleRow) :
  fold_left (fun '(rows, battleRows) b =>
               let '(r, br) := gt_battle_rows gtMap b in (rows ++ r, battleRows ++ br))
    battles (rows, brs)
  = (rows ++ flat_map (fun b => fst (gt_battle_rows gtMap b)) battles,
     brs ++ flat_map (fun b => snd (gt_battle_rows gtMap b)) battles).
Proof.
  revert rows brs. induction battles as [|b bs IH]; intros rows brs; simpl.
  - rewrite !app_nil_r. reflexivity.
  - destruct (gt_battle_rows gtMap b) as [r br]. rewrite IH, !app_assoc. reflexivity.
Qed.

End GTExport.

(** C5: [exportLabelsFromGT] refuses, with its alert, as soon as one battle
    has no GT decision. When there are battles and all have a decision
    naming one of their two (distinct) dancers, it exports, battle after
    battle, exactly one record per (winning unit, losing unit) pair, each
    with score 2. *)
Theorem exportLabelsFromGT_cross_product (battles : list Battle)
  (gtMap : gmap jsstr WinnerDecision) :
  ((exists b, b ∈ battles /\ gtMap !! battle_videoId b = None) ->
   exportLabelsFromGT battles gtMap = Refused msg_gt_incomplete) /\
  (battles <> [] ->
   (forall b, b ∈ battles ->
      exists g, gtMap !! battle_videoId b = Some g /\
        dancerKey (fst (dancers b)) <> dancerKey (snd (dancers b)) /\
        (winnerDancerKey g = dancerKey (fst (dancers b)) \/
         winnerDancerKey g = dancerKey (snd (dancers b)))) ->
   exists battleRows,
     exportLabelsFromGT battles gtMap
     = Exported
         (flat_map (fun b => match gtMap !! battle_videoId b with
                             | Some g => derived_records b (winnerDancerKey g)
                             | None => []
                             end) battles)
         battleRows).
Proof.
  split.
  - intros (b & Hb & Hnone). unfold exportLabelsFromGT, gtComplete.
    destruct (Nat.eqb_spec (gtDone battles gtMap) (length battles)) as [E|E].
    + pose proof (gtDone_full _ _ E b Hb) as Hs. rewrite Hnone in Hs. by destruct Hs.
    + rewrite andb_false_r. reflexivity.
  - intros Hne Hall.
    assert (Hrows : flat_map (fun b => fst (gt_battle_rows gtMap b)) battles
                    = flat_map (fun b => match gtMap !! battle_videoId b with
                                         | Some g => derived_records b (winnerDancerKey g)
                                         | None => []
                                         end) battles).
    { clear Hne. induction battles as [|b l IH]; simpl; [reflexivity|].
      destruct (Hall b ltac:(set_solver)) as (g & Hg & Hk & Hw).
      rewrite (gt_battle_rows_derived _ _ _ Hg Hk Hw), Hg. f_equal.
      apply IH. intros b' Hb'. apply Hall. set_solver. }
    assert (Hpos : (0 <? length battles)%nat = true).
    { apply Nat.ltb_lt. destruct battles; [done | simpl; lia]. }
    unfold exportLabelsFromGT, gtComplete.
    rewrite gtDone_all by (intros b Hb; destruct (Hall b Hb) as (g & Hg & _); rewrite Hg; done).
    rewrite Hpos, Nat.eqb_refl. simpl negb. cbv iota.
    rewrite gt_export_fold. simpl. eexists. rewrite Hrows. reflexivity.
Qed.

Section QCMetrics.

Lemma map_size_filter_list (P : jsstr * WinnerDecision -> Prop) `{!forall x, Decision (P x)}
  (m : gmap jsstr WinnerDecision) :
  size (filter P m) = length (filter P (map_to_list m)).
Proof.
  rewrite map_filter_alt. apply map_size_list_to_map.
  eapply sublist_NoDup; [apply (NoDup_fst_map_to_list m)|].
  apply fmap_sublist, sublist_filter.
Qed.

Lemma qc_counts_fold (gtMap : gmap jsstr WinnerDecision)
  (l : list (jsstr * WinnerDecision)) (a b : nat) :
  fold_left
    (fun '(comparable, correct) '(vid, dec) =>
       match gtMap !! vid with
       | None => (comparable, correct)
       | Some gt =>
           (S comparable,
            if bool_decide (winnerDancerKey gt = winnerDancerKey dec) then S correct else correct)
       end) l (a, b)
  = ((a + length (filter (fun kv => is_Some (gtMap !! kv.1)) l))%nat,
     (b + length (filter (fun kv => option_map winnerDancerKey (gtMap !! kv.1)
                                    = Some (winnerDancerKey kv.2)) l))%nat).
Proof.
  revert a b. induction l as [|[vid dec] l IH]; intros a b; simpl.
  - f_equal; lia.
  - rewrite !filter_cons. simpl.
    destruct (gtMap !! vid) as [gt|] eqn:Eg; simpl.
    + rewrite IH.
      destruct (decide (winnerDancerKey gt = winnerDancerKey dec)) as [E|E].
      * rewrite bool_decide_eq_true_2 by exact E.
        rewrite decide_True by (rewrite E; reflexivity). simpl. f_equal; lia.
      * rewrite bool_decide_eq_false_2 by exact E.
        rewrite decide_False by congruence. f_equal; lia.
    + try rewrite decide_False by discriminate. apply IH.
Qed.

End QCMetrics.

(** C6: for every QC file and GT map, [comparable] is the number of battle
    ids decided in both the QC set and the GT map, [correct] the number of
    those whose winner keys agree, and [accuracy] is [correct / comparable]
    ([null] when nothing is comparable); ids missing from the GT map are
    left out of both counts. For GT [{v1: X, v2: Y}] and QC
    [{v1: X, v2: Z, v3: X}]: comparable 2, correct 1, accuracy 1/2. *)
Theorem qcMetric_accuracy :
  (forall (gtMap : gmap jsstr WinnerDecision) (f : QCProgressFile),
     let qc := default ∅ (qcf_qc f) in
     let r := qcMetric gtMap f in
     qm_comparable r = size (filter (fun kv => is_Some (gtMap !! kv.1)) qc) /\
     qm_correct r = size (filter (fun kv => option_map winnerDancerKey (gtMap !! kv.1)
                                            = Some (winnerDancerKey kv.2)) qc) /\
     qm_accuracy r
       = (if (0 <? qm_comparable r)%nat
          then Some (inject_Z (Z.of_nat (qm_correct r)) / inject_Z (Z.of_nat (qm_comparable r)))%Q
          else None)) /\
  (let d k := mkWinnerDecision (lit k) 0 in
   let gt := <[lit "v1" := d "X"%string]> (<[lit "v2" := d "Y"%string]> ∅) in
   let qc := <[lit "v1" := d "X"%string]> (<[lit "v2" := d "Z"%string]> (<[lit "v3" := d "X"%string]> ∅)) in
   let r := qcMetric gt (mkQCProgressFile (Some (lit "qc-progress-v1")) None demo_user None (Some qc)) in
   qm_comparable r = 2%nat /\ qm_correct r = 1%nat /\ qm_accuracy r = Some (1 # 2)%Q).
Proof.
  split.
  - intros gtMap f qc r. unfold r, qcMetric. fold qc. unfold qc_counts.
    rewrite qc_counts_fold. simpl.
    rewrite !map_size_filter_list. repeat split.
  - vm_compute. repeat split.
Qed.

Section StableSort.

Context {A : Type} (c : A -> A -> Z).
Hypothesis c_antisym : forall a b, c b a = - c a b.

Lemma insert_by_perm (x : A) (l : list A) : insert_by c x l ≡ₚ x :: l.
Proof.
  induction l as [|y l IH]; simpl; [done|].
  destruct (c x y <? 0); [done|]. rewrite IH. apply perm_swap.
Qed.

Lemma sort_by_perm (l : list A) : sort_by c l ≡ₚ l.
Proof.
  unfold sort_by.
  assert (H : forall acc, fold_left (fun acc x => insert_by c x acc) l acc ≡ₚ l ++ acc).
  { induction l as [|x l IH]; intros acc; simpl; [done|].
    rewrite IH, insert_by_perm, Permutation_middle. done. }
  rewrite H. by rewrite app_nil_r.
Qed.

Lemma insert_by_hd (y x : A) (l : list A) :
  HdRel (fun a b => c a b <= 0) y l -> c y x <= 0 ->
  HdRel (fun a b => c a b <= 0) y (insert_by c x l).
Proof.
  intros Hl Hyx. destruct l as [|z l]; simpl; [constructor; exact Hyx|].
  destruct (c x z <? 0); constructor; [exact Hyx|]. inversion Hl; assumption.
Qed.

Lemma insert_by_sorted (x : A) (l : list A) :
  Sorted (fun a b => c a b <= 0) l -> Sorted (fun a b => c a b <= 0) (insert_by c x l).
Proof.
  induction l as [|y l IH]; intros Hs; simpl.
  - repeat constructor.
  - destruct (c x y <? 0) eqn:E.
    + apply Z.ltb_lt in E. constructor; [exact Hs | constructor; lia].
    + apply Z.ltb_ge in E. inversion Hs as [|? ? Hl Hhd]; subst.
      constructor; [apply IH, Hl|]. apply insert_by_hd; [exact Hhd|].
      rewrite c_antisym. lia.
Qed.

Lemma sort_by_sorted (l : list A) : Sorted (fun a b => c a b <= 0) (sort_by c l).
Proof.
  unfold sort_by.
  assert (H : forall acc, Sorted (fun a b => c a b <= 0) acc ->
    Sorted (fun a b => c a b <= 0) (fold_left (fun acc x => insert_by c x acc) l acc)).
  { induction l as [|x l IH]; intros acc Hacc; simpl; [done|].
    apply IH, insert_by_sorted, Hacc. }
  apply H. constructor.
Qed.

End StableSort.

Section JsMap.

Context {V : Type}.

Lemma map_set_keys (k : jsstr) (v : V) (m : list (jsstr * V)) :
  forall k', k' ∈ map fst (map_set k v m) -> k' = k \/ k' ∈ map fst m.
Proof.
  induction m as [|[k0 v0] m IH]; simpl; intros k' Hk.
  - set_solver.
  - case_bool_decide; simpl in *; [set_solver|].
    apply elem_of_cons in Hk as [->|Hk]; [set_solver|].
    destruct (IH k' Hk); set_solver.
Qed.

Lemma map_set_nodup (k : jsstr) (v : V) (m : list (jsstr * V)) :
  NoDup (map fst m) -> NoDup (map fst (map_set k v m)).
Proof.
  induction m as [|[k0 v0] m IH]; simpl; intros Hnd.
  - constructor; [set_solver | constructor].
  - apply NoDup_cons in Hnd as [Hn Hnd].
    case_bool_decide; simpl; constructor; auto.
    intros Hin. apply map_set_keys in Hin as [->|Hin]; auto.
Qed.

Lemma map_set_elem (k : jsstr) (v : V) (m : list (jsstr * V)) : (k, v) ∈ map_set k v m.
Proof.
  induction m as [|[k0 v0] m IH]; simpl; [set_solver|].
  case_bool_decide; subst; set_solver.
Qed.

Lemma map_set_keep (k k2 : jsstr) (v v2 : V) (m : list (jsstr * V)) :
  (k, v) ∈ m -> k <> k2 -> (k, v) ∈ map_set k2 v2 m.
Proof.
  induction m as [|[k0 v0] m IH]; simpl; intros Hin Hne; [set_solver|].
  apply elem_of_cons in Hin as [Heq|Hin].
  - injection Heq as -> ->. rewrite bool_decide_eq_false_2 by congruence. set_solver.
  - case_bool_decide; set_solver.
Qed.

Lemma map_set_inv (k : jsstr) (v : V) (m : list (jsstr * V)) :
  forall kv, kv ∈ map_set k v m -> kv = (k, v) \/ kv ∈ m.
Proof.
  induction m as [|[k0 v0] m IH]; simpl; intros kv Hkv; [set_solver|].
  case_bool_decide; subst.
  - apply elem_of_cons in Hkv as [->|Hkv]; set_solver.
  - apply elem_of_cons in Hkv as [->|Hkv]; [set_solver|].
    destruct (IH kv Hkv); set_solver.
Qed.

End JsMap.

Section QCImport.

Let file_id (f : QCProgressFile) : jsstr := user_id (qcf_user f).

Let sets (l : list QCProgressFile) (m : list (jsstr * QCProgressFile)) :=
  fold_left (fun m p => map_set (user_id (qcf_user p)) p m) l m.

Let keyed (m : list (jsstr * QCProgressFile)) : Prop :=
  NoDup (map fst m) /\ forall kv, kv ∈ m -> file_id kv.2 = kv.1.

Lemma sets_keyed (l : list QCProgressFile) (m : list (jsstr * QCProgressFile)) :
  keyed m -> keyed (sets l m).
Proof.
  unfold sets. revert m. induction l as [|p l IH]; intros m [Hnd Hk]; simpl; [split; done|].
  apply IH. split; [apply map_set_nodup, Hnd|].
  intros kv Hkv. apply map_set_inv in Hkv as [->|Hkv]; [reflexivity | apply Hk, Hkv].
Qed.

Lemma sets_keep (l : list QCProgressFile) (m : list (jsstr * QCProgressFile)) k v :
  (k, v) ∈ m -> (forall n, n ∈ l -> file_id n <> k) -> (k, v) ∈ sets l m.
Proof.
  unfold sets. revert m. induction l as [|p l IH]; intros m Hin Hl; simpl; [done|].
  apply IH; [|intros n Hn; apply Hl; set_solver].
  apply map_set_keep; [exact Hin|]. intros E. apply (Hl p); [set_solver | done].
Qed.

Lemma sets_last (l : list QCProgressFile) (m : list (jsstr * QCProgressFile)) k :
  (exists n, n ∈ l /\ file_id n = k) ->
  exists n, n ∈ l /\ file_id n = k /\ (k, n) ∈ sets l m.
Proof.
  revert m. induction l as [|p l IH]; intros m (n & Hn & Hid); [set_solver|].
  destruct (decide (Exists (fun n' => file_id n' = k) l)) as [Hl|Hl];
    rewrite Exists_exists in Hl.
  - destruct (IH (map_set (user_id (qcf_user p)) p m) Hl) as (n' & ? & ? & ?).
    exists n'. split; [set_solver|]. split; assumption.
  - assert (Hp : file_id p = k).
    { apply elem_of_cons in Hn as [->|Hn]; [exact Hid|]. exfalso. apply Hl. eauto. }
    exists p. split; [set_solver|]. split; [exact Hp|].
    unfold sets. simpl. apply sets_keep.
    + fold (file_id p). rewrite Hp. apply map_set_elem.
    + intros n' Hn' E. apply Hl. eauto.
Qed.

Lemma keyed_ids (m : list (jsstr * QCProgressFile)) :
  keyed m -> map file_id (map snd m) = map fst m.
Proof.
  intros [_ Hk]. induction m as [|[k v] m IH]; simpl; [done|].
  f_equal; [exact (Hk (k, v) ltac:(set_solver)) | apply IH].
  intros kv Hkv. apply Hk. set_solver.
Qed.

Lemma nodup_map_inj {A B} (g : A -> B) (l : list A) (x y : A) :
  NoDup (map g l) -> x ∈ l -> y ∈ l -> g x = g y -> x = y.
Proof.
  induction l as [|z l IH]; simpl; intros Hnd Hx Hy E; [set_solver|].
  apply NoDup_cons in Hnd as [Hz Hnd].
  apply elem_of_cons in Hx as [->|Hx]; apply elem_of_cons in Hy as [->|Hy]; auto.
  - exfalso. apply Hz. rewrite E. apply list_elem_of_fmap. eauto.
  - exfalso. apply Hz. rewrite <- E. apply list_elem_of_fmap. eauto.
Qed.

Lemma importQCFiles_shape (localeCompare : jsstr -> jsstr -> Z) dataset fs prev :
  qc_loaded dataset fs <> [] ->
  exists m, keyed m /\
    importQCFiles localeCompare dataset fs prev
    = sort_by (fun a b => localeCompare (file_id a) (file_id b)) (map snd m) /\
    m = sets (qc_loaded dataset fs) (sets prev []).
Proof.
  intros Hne. exists (sets (qc_loaded dataset fs) (sets prev [])).
  split; [apply sets_keyed, sets_keyed; split; [constructor | set_solver]|].
  split; [|reflexivity].
  unfold importQCFiles. destruct (qc_loaded dataset fs); [done|]. reflexivity.
Qed.

End QCImport.

Section QCImportSpec.

Variable localeCompare : jsstr -> jsstr -> Z.
Hypothesis localeCompare_antisym : forall a b, localeCompare b a = - localeCompare a b.

Lemma importQCFiles_inv dataset fs prev :
  NoDup (map (fun f => user_id (qcf_user f)) prev) ->
  Sorted (fun a b => localeCompare (user_id (qcf_user a)) (user_id (qcf_user b)) <= 0) prev ->
  let next := importQCFiles localeCompare dataset fs prev in
  NoDup (map (fun f => user_id (qcf_user f)) next) /\
  Sorted (fun a b => localeCompare (user_id (qcf_user a)) (user_id (qcf_user b)) <= 0) next.
Proof.
  intros Hnd Hs next. unfold next.
  destruct (decide (qc_loaded dataset fs = [])) as [E|E].
  { unfold importQCFiles. rewrite E. simpl. split; assumption. }
  destruct (importQCFiles_shape localeCompare dataset fs prev E) as (m & Hm & -> & _).
  split.
  - rewrite (sort_by_perm _ (map snd m)).
    rewrite (keyed_ids m Hm). apply Hm.
  - apply (sort_by_sorted (fun a b => localeCompare (user_id (qcf_user a)) (user_id (qcf_user b)))).
    intros a b. apply localeCompare_antisym.
Qed.

(** C10: after any sequence of QC-file imports, [qcFiles] holds at most one
    file per [user.id] and is sorted by [user.id] for the [localeCompare]
    order; an import replaces, for every user id among the accepted files,
    whatever file that user had by exactly one of the newly accepted
    files. *)
Theorem qcFiles_one_per_user_sorted (dataset : jsstr)
  (imports : list (list (option QCProgressFile))) :
  let files := qcFiles_after localeCompare dataset imports in
  NoDup (map (fun f => user_id (qcf_user f)) files) /\
  Sorted (fun a b => localeCompare (user_id (qcf_user a)) (user_id (qcf_user b)) <= 0) files /\
  (forall fs prev k,
     (exists n, n ∈ qc_loaded dataset fs /\ user_id (qcf_user n) = k) ->
     exists n, n ∈ qc_loaded dataset fs /\ user_id (qcf_user n) = k /\
       n ∈ importQCFiles localeCompare dataset fs prev /\
       forall f, f ∈ importQCFiles localeCompare dataset fs prev ->
                 user_id (qcf_user f) = k -> f = n).
Proof.
  intros files. split; [|split].
  - unfold files, qcFiles_after.
    assert (H : forall prev,
      NoDup (map (fun f => user_id (qcf_user f)) prev) ->
      Sorted (fun a b => localeCompare (user_id (qcf_user a)) (user_id (qcf_user b)) <= 0) prev ->
      NoDup (map (fun f => user_id (qcf_user f))
        (fold_left (fun prev files => importQCFiles localeCompare dataset files prev)
           imports prev))).
    { induction imports as [|fs imports IH]; intros prev Hnd Hs; simpl; [done|].
      destruct (importQCFiles_inv dataset fs prev Hnd Hs). apply IH; assumption. }
    apply H; constructor.
  - unfold files, qcFiles_after.
    assert (H : forall prev,
      NoDup (map (fun f => user_id (qcf_user f)) prev) ->
      Sorted (fun a b => localeCompare (user_id (qcf_user a)) (user_id (qcf_user b)) <= 0) prev ->
      Sorted (fun a b => localeCompare (user_id (qcf_user a)) (user_id (qcf_user b)) <= 0)
        (fold_left (fun prev files => importQCFiles localeCompare dataset files prev)
           imports prev)).
    { induction imports as [|fs imports IH]; intros prev Hnd Hs; simpl; [done|].
      destruct (importQCFiles_inv dataset fs prev Hnd Hs). apply IH; assumption. }
    apply H; constructor.
  - intros fs prev k Hk.
    assert (E : qc_loaded dataset fs <> []).
    { destruct Hk as (n0 & Hn0 & _). intros E. rewrite E in Hn0.
      apply elem_of_nil in Hn0. exact Hn0. }
    destruct (importQCFiles_shape localeCompare dataset fs prev E) as (m & Hm & Hres & Hmdef).
    destruct (sets_last (qc_loaded dataset fs)
                (fold_left (fun m p => map_set (user_id (qcf_user p)) p m) prev []) k Hk)
      as (n & Hn & Hid & Hkn).
    assert (Hnodup : NoDup (map (fun f => user_id (qcf_user f))
                              (importQCFiles localeCompare dataset fs prev))).
    { rewrite Hres, (sort_by_perm _ (map snd m)).
      rewrite (keyed_ids m Hm). apply Hm. }
    assert (Hmem : n ∈ importQCFiles localeCompare dataset fs prev).
    { rewrite Hres, (sort_by_perm _ (map snd m)).
      apply list_elem_of_fmap. exists (k, n). split; [reflexivity|].
      rewrite Hmdef. exact Hkn. }
    exists n. split; [exact Hn|]. split; [exact Hid|]. split; [exact Hmem|].
    intros f Hf Hfk. eapply nodup_map_inj; [exact Hnodup | exact Hf | exact Hmem | congruence].
Qed.

End QCImportSpec.

Lemma qcFiles_one_per_user_sorted_witness :
  let cmp := fun a b : jsstr => Z.of_nat (length a) - Z.of_nat (length b) in
  let f u := mkQCProgressFile (Some (lit "qc-progress-v1")) (Some (lit "d")) u None (Some ∅) in
  let imports := [[Some (f demo_user)];
                  [Some (f (mkUser (lit "GT") (lit "GT Account") (lit "gt") (-1)));
                   Some (f demo_user)]] in
  (forall a b, cmp b a = - cmp a b) /\
  let files := qcFiles_after cmp (lit "d") imports in
  NoDup (map (fun f => user_id (qcf_user f)) files) /\
  Sorted (fun a b => cmp (user_id (qcf_user a)) (user_id (qcf_user b)) <= 0) files /\
  (forall fs prev k,
     (exists n, n ∈ qc_loaded (lit "d") fs /\ user_id (qcf_user n) = k) ->
     exists n, n ∈ qc_loaded (lit "d") fs /\ user_id (qcf_user n) = k /\
       n ∈ importQCFiles cmp (lit "d") fs prev /\
       forall f, f ∈ importQCFiles cmp (lit "d") fs prev ->
                 user_id (qcf_user f) = k -> f = n).
Proof.
  intros cmp f imports.
  assert (H : forall a b, cmp b a = - cmp a b) by (intros a b; unfold cmp; lia).
  split; [exact H | apply (qcFiles_one_per_user_sorted cmp H (lit "d") imports)].
Defined.

Example derived_records_2x3 :
  let u n := mkUnit (lit n) None None (Some (lit "v")) [] in
  let b := mkBattle (lit "v") (mkDancerGroup (lit "a") [u "a1"%string; u "a2"%string],
                               mkDancerGroup (lit "b") [u "b1"%string; u "b2"%string; u "b3"%string]) in
  exists brs, exportLabelsFromGT [b] (<[lit "v" := mkWinnerDecision (lit "a") 0]> ∅)
              = Exported (derived_records b (lit "a")) brs /\
              length (derived_records b (lit "a")) = 6%nat /\
              Forall (fun r => lr_score r = 2) (derived_records b (lit "a")).
Proof. vm_compute. eexists. split; [reflexivity|]. split; [reflexivity|]. repeat constructor. Qed.

Example export_refused_without_battles :
  exportLabelsFromGT [] ∅ = Refused msg_gt_incomplete.
Proof. reflexivity. Qed.

(** ** Accounts, sign-in and the spread of QC work *)

Section Accounts.

Lemma qcAssignees_cases (videoId salt : jsstr) :
  exists p, 0 <= p < OWNER_COUNT /\
    (qcAssigneesForBattle videoId salt = [Num p] \/
     exists s, 0 <= s < OWNER_COUNT /\ s <> p /\
               qcAssigneesForBattle videoId salt = [Num p; Num s]).
Proof.
  unfold qcAssigneesForBattle, qcAssigneesForBattleN, OWNER_COUNT.
  replace (4 - 1) with 3 by reflexivity.
  rewrite !mod_pos by lia.
  set (p := hashStrDJB2 (lit "qc:pri:" ++ videoId ++ lit ":" ++ salt)).
  set (q := hashStrDJB2 (lit "qc:sec:" ++ videoId ++ lit ":" ++ salt)).
  pose proof (Z.mod_pos_bound p 4 ltac:(lia)).
  pose proof (Z.mod_pos_bound q 3 ltac:(lia)).
  rewrite !js_add_exact by lia.
  exists (p mod 4). split; [lia|].
  destruct (bucket_below _); [right | left; reflexivity].
  simpl. rewrite Z.rem_mod_nonneg by lia.
  eexists. split; [|split; [|reflexivity]]; Z.div_mod_to_equations; lia.
Qed.

Let assigned (salt : jsstr) (u : User) (b : Battle) : bool :=
  bool_decide (user_role u = lit "annotator") &&
  existsb (jsnum_eqb (Num (user_index u))) (qcAssigneesForBattle (battle_videoId b) salt).

Lemma qcAssigned_cons salt b bs u :
  qcAssignedBattles salt (b :: bs) u
  = (if assigned salt u b then [b] else []) ++ qcAssignedBattles salt bs u.
Proof.
  unfold qcAssignedBattles, assigned.
  destruct (bool_decide (user_role u = lit "annotator")); simpl; [|reflexivity].
  rewrite filter_cons. case_decide as Hd; destruct (existsb _ _); simpl in *;
    first [reflexivity | contradiction].
Qed.

Lemma qcAssigned_mem salt battles u b :
  b ∈ battles -> (b ∈ qcAssignedBattles salt battles u <-> assigned salt u b = true).
Proof.
  intros Hb. unfold qcAssignedBattles, assigned.
  destruct (bool_decide (user_role u = lit "annotator")); simpl.
  - rewrite list_elem_of_filter. destruct (existsb _ _); simpl;
      split; intros H; try tauto; try discriminate; destruct H as [[] _].
  - split; [intros H; apply elem_of_nil in H; done | discriminate].
Qed.

(** Per battle, the annotator accounts holding one of its slots are as many
    as the slots. *)
Lemma owners_per_battle salt b :
  sum_list_with (fun a => if assigned salt (account_user a) b then 1%nat else 0%nat) USERS
  = length (qcAssigneesForBattle (battle_videoId b) salt).
Proof.
  unfold assigned.
  destruct (qcAssignees_cases (battle_videoId b) salt) as (p & Hp & [E | (s & Hs & Hne & E)]);
    rewrite E; unfold OWNER_COUNT in *.
  - assert (p = 0 \/ p = 1 \/ p = 2 \/ p = 3) as Hc by lia.
    destruct Hc as [-> | [-> | [-> | ->]]]; reflexivity.
  - assert (p = 0 \/ p = 1 \/ p = 2 \/ p = 3) as Hc by lia.
    assert (s = 0 \/ s = 1 \/ s = 2 \/ s = 3) as Hc' by lia.
    destruct Hc as [-> | [-> | [-> | ->]]]; destruct Hc' as [-> | [-> | [-> | ->]]];
      first [reflexivity | lia].
Qed.

Lemma sum_list_with_split {A} (f g h : A -> nat) (l : list A) :
  (forall a, f a = (g a + h a)%nat) ->
  sum_list_with f l = (sum_list_with g l + sum_list_with h l)%nat.
Proof. intros H. induction l as [|a l IH]; simpl; [reflexivity|]. rewrite H, IH. lia. Qed.

Lemma length_filter_sum {A} (f : A -> bool) (l : list A) :
  length (filter (fun a => f a) l) = sum_list_with (fun a => if f a then 1%nat else 0%nat) l.
Proof.
  induction l as [|a l IH]; [reflexivity|].
  rewrite filter_cons. simpl. destruct (f a) eqn:E; case_decide as Hd;
    rewrite ?E in Hd; simpl in *; first [rewrite IH; reflexivity | contradiction].
Qed.

Lemma owners_count salt battles b :
  b ∈ battles ->
  length (filter (fun a => b ∈ qcAssignedBattles salt battles (account_user a)) USERS)
  = length (qcAssigneesForBattle (battle_videoId b) salt).
Proof.
  intros Hb.
  rewrite (list_filter_iff _ (fun a => Is_true (assigned salt (account_user a) b))).
  - rewrite length_filter_sum. apply owners_per_battle.
  - intros a. rewrite qcAssigned_mem by exact Hb.
    destruct (assigned _ _ _); simpl; split; intros H; first [exact I | reflexivity | contradiction | discriminate].
Qed.

Lemma qcAssigned_length_cons salt b bs :
  sum_list_with (fun a => length (qcAssignedBattles salt (b :: bs) (account_user a))) USERS
  = (length (qcAssigneesForBattle (battle_videoId b) salt)
     + sum_list_with (fun a => length (qcAssignedBattles salt bs (account_user a))) USERS)%nat.
Proof.
  rewrite (sum_list_with_split _
             (fun a => if assigned salt (account_user a) b then 1%nat else 0%nat)
             (fun a => length (qcAssignedBattles salt bs (account_user a)))).
  - rewrite owners_per_battle. reflexivity.
  - intros a. rewrite qcAssigned_cons, length_app.
    destruct (assigned _ _ _); reflexivity.
Qed.

Lemma qcShared_cons salt b bs u :
  qcSharedCount salt (b :: bs) u
  = ((if assigned salt u b && bool_decide (1 < length (qcAssigneesForBattle (battle_videoId b) salt))%nat
      then 1 else 0) + qcSharedCount salt bs u)%nat.
Proof.
  unfold qcSharedCount. rewrite qcAssigned_cons. unfold assigned.
  destruct (bool_decide (user_role u = lit "annotator")); simpl; [|reflexivity].
  destruct (existsb _ _); simpl; [|reflexivity].
  rewrite filter_cons. case_bool_decide; case_decide; simpl; first [reflexivity | contradiction].
Qed.

Lemma sum_list_with_ext {A} (f g : A -> nat) (l : list A) :
  (forall a, f a = g a) -> sum_list_with f l = sum_list_with g l.
Proof. intros H. induction l as [|a l IH]; simpl; [reflexivity|]. rewrite H, IH. reflexivity. Qed.

Lemma sum_list_with_zero {A} (l : list A) : sum_list_with (fun _ => 0%nat) l = 0%nat.
Proof. induction l as [|a l IH]; simpl; [reflexivity|]. exact IH. Qed.

Lemma qcShared_total_cons salt b bs :
  sum_list_with (fun a => qcSharedCount salt (b :: bs) (account_user a)) USERS
  = ((if bool_decide (1 < length (qcAssigneesForBattle (battle_videoId b) salt))%nat
      then length (qcAssigneesForBattle (battle_videoId b) salt) else 0)
     + sum_list_with (fun a => qcSharedCount salt bs (account_user a)) USERS)%nat.
Proof.
  rewrite (sum_list_with_split _
             (fun a => if assigned salt (account_user a) b
                          && bool_decide (1 < length (qcAssigneesForBattle (battle_videoId b) salt))%nat
                       then 1%nat else 0%nat)
             (fun a => qcSharedCount salt bs (account_user a))).
  - f_equal. rewrite <- owners_per_battle.
    destruct (bool_decide _).
    + apply sum_list_with_ext. intros a. rewrite andb_true_r. reflexivity.
    + rewrite <- (sum_list_with_zero USERS). apply sum_list_with_ext.
      intros a. rewrite andb_false_r. reflexivity.
  - intros a. apply qcShared_cons.
Qed.

End Accounts.

(** Sign-in: choosing a listed account succeeds exactly with that account's
    passcode, yielding its public fields; any other passcode is refused with
    "Invalid passcode.". *)
Theorem signIn_listed_account (a : Account) (pw : jsstr) :
  a ∈ USERS ->
  signIn (acc_id a) pw
  = Some (if bool_decide (pw = acc_passcode a) then Ok (account_user a)
          else Err msg_invalid_passcode).
Proof.
  intros Ha. unfold USERS in Ha.
  repeat (apply elem_of_cons in Ha as [-> | Ha];
          [match goal with
           | |- signIn (acc_id ?acc) _ = _ =>
               unfold signIn;
               replace (find _ USERS) with (Some acc) by (vm_compute; reflexivity);
               cbv beta iota;
               destruct (bool_decide (pw = acc_passcode acc)); reflexivity
           end |]).
  apply elem_of_nil in Ha. contradiction.
Qed.

Lemma signIn_listed_account_witness :
  lit "C" = acc_id (mkAccount (lit "C") (lit "Annotator C") (lit "annotator") 2 (lit "3333")) /\
  signIn (lit "C") (lit "1111") = Some (Err msg_invalid_passcode).
Proof.
  split; [reflexivity|].
  rewrite (signIn_listed_account (mkAccount (lit "C") (lit "Annotator C") (lit "annotator") 2 (lit "3333"))).
  - reflexivity.
  - apply (bool_decide_unpack _). vm_compute. exact I.
Defined.

(** Every battle of the list is in the QC queue of one or two accounts, and
    of exactly as many accounts as it has assignee slots; the GT account's
    QC queue is empty. *)
Theorem qc_battle_owner_accounts (salt : jsstr) (battles : list Battle) (b : Battle) :
  b ∈ battles ->
  (let n := length (filter (fun a => b ∈ qcAssignedBattles salt battles (account_user a)) USERS) in
   n = length (qcAssigneesForBattle (battle_videoId b) salt) /\ (n = 1 \/ n = 2)%nat) /\
  (forall a, a ∈ USERS -> acc_id a = lit "GT" ->
   qcAssignedBattles salt battles (account_user a) = []).
Proof.
  intros Hb. split.
  - intros n. unfold n. rewrite owners_count by exact Hb.
    split; [reflexivity|].
    destruct (qcAssignees_cases (battle_videoId b) salt) as (p & _ & [E | (s & _ & _ & E)]);
      rewrite E; simpl; [left | right]; reflexivity.
  - intros a Ha Hid. unfold USERS in Ha. rewrite !elem_of_cons in Ha.
    destruct Ha as [-> | [-> | [-> | [-> | [-> | Ha]]]]];
      try (vm_compute in Hid; discriminate);
      [|apply elem_of_nil in Ha; contradiction].
    unfold qcAssignedBattles. rewrite bool_decide_eq_false_2; [reflexivity|].
    intros E. vm_compute in E. discriminate.
Qed.

Lemma qc_battle_owner_accounts_witness :
  demo_battle "v1" ∈ [demo_battle "v1"; demo_battle "v2"] /\
  ((let n := length (filter (fun a => demo_battle "v1"
                      ∈ qcAssignedBattles (lit "/data/dancer_units.csv")
                          [demo_battle "v1"; demo_battle "v2"] (account_user a)) USERS) in
    n = length (qcAssigneesForBattle (lit "v1") (lit "/data/dancer_units.csv")) /\ (n = 1 \/ n = 2)%nat) /\
   (forall a, a ∈ USERS -> acc_id a = lit "GT" ->
    qcAssignedBattles (lit "/data/dancer_units.csv") [demo_battle "v1"; demo_battle "v2"]
      (account_user a) = [])).
Proof.
  split; [apply elem_of_cons; left; reflexivity|].
  apply qc_battle_owner_accounts. apply elem_of_cons; left; reflexivity.
Defined.

(** Summed over all accounts, the QC queues hold each battle once per
    assignee slot: the battle count plus the number of shared battles. *)
Theorem qc_total_workload (salt : jsstr) (battles : list Battle) :
  sum_list_with (fun a => length (qcAssignedBattles salt battles (account_user a))) USERS
  = (length battles
     + length (filter (fun b => 1 < length (qcAssigneesForBattle (battle_videoId b) salt))%nat
                      battles))%nat.
Proof.
  induction battles as [|b bs IH]; [reflexivity|].
  rewrite qcAssigned_length_cons, IH, filter_cons.
  destruct (qcAssignees_cases (battle_videoId b) salt) as (p & _ & [E | (s & _ & _ & E)]);
    rewrite E; simpl; repeat case_decide; simpl in *; lia.
Qed.

(** Summed over all accounts, [qcSharedCount] counts every shared battle
    twice, once for each of its two assignees. *)
Theorem qcSharedCount_total (salt : jsstr) (battles : list Battle) :
  sum_list_with (fun a => qcSharedCount salt battles (account_user a)) USERS
  = (2 * length (filter (fun b => 1 < length (qcAssigneesForBattle (battle_videoId b) salt))%nat
                        battles))%nat.
Proof.
  induction battles as [|b bs IH]; [reflexivity|].
  rewrite qcShared_total_cons, IH, filter_cons.
  destruct (qcAssignees_cases (battle_videoId b) salt) as (p & _ & [E | (s & _ & _ & E)]);
    rewrite E; simpl; repeat case_decide; simpl in *; lia.
Qed.

(** ** Navigation and decisions: proofs *)

Section Navigation.

Lemma rem_range (a len : Z) : 0 <= a -> 0 < len -> 0 <= Z.rem a len < len.
Proof.
  intros Ha Hl. rewrite Z.rem_mod_nonneg by lia. apply Z.mod_pos_bound. lia.
Qed.

Lemma lookup_in_range {A} (l : list A) (i : Z) :
  0 <= i < Z.of_nat (length l) -> exists x, l !! Z.to_nat i = Some x.
Proof.
  intros H. destruct (l !! Z.to_nat i) as [x|] eqn:E; [eauto|].
  apply lookup_ge_None in E. lia.
Qed.

Lemma clamp_id (len c : Z) : 0 <= c < len -> clampCursor len c = c.
Proof. unfold clampCursor. lia. Qed.

Lemma clamp_range (len c : Z) : 0 < len -> 0 <= clampCursor len c < len.
Proof. unfold clampCursor. lia. Qed.

Lemma scan_some bs m start step fuel i :
  scanUnlabeled bs m start step fuel = Some i ->
  exists k b, step <= k < step + Z.of_nat fuel /\
    i = Z.rem (start + k) (Z.of_nat (length bs)) /\
    bs !! Z.to_nat i = Some b /\ m !! battle_videoId b = None /\
    (forall k', step <= k' < k -> exists b',
        bs !! Z.to_nat (Z.rem (start + k') (Z.of_nat (length bs))) = Some b' /\
        is_Some (m !! battle_videoId b')).
Proof.
  revert step. induction fuel as [|f IH]; intros step H; simpl in H; [discriminate|].
  destruct (bs !! Z.to_nat (Z.rem (start + step) _)) as [b|] eqn:Eb; [|discriminate].
  case_bool_decide as Hd.
  - destruct (IH _ H) as (k & b' & Hk & Hi & Hb' & Hn & Hbefore).
    exists k, b'. repeat split; try lia; try assumption.
    intros k' Hk'. destruct (Z.eq_dec k' step) as [->|Hne].
    + exists b. split; assumption.
    + apply Hbefore. lia.
  - injection H as <-. exists step, b. repeat split; try lia; try assumption.
    destruct (m !! battle_videoId b) eqn:E; [exfalso; apply Hd; eauto | reflexivity].
Qed.

Lemma scan_none bs m start step fuel :
  0 <= start -> 0 <= step -> (0 < length bs)%nat ->
  scanUnlabeled bs m start step fuel = None ->
  forall k, step <= k < step + Z.of_nat fuel -> exists b',
    bs !! Z.to_nat (Z.rem (start + k) (Z.of_nat (length bs))) = Some b' /\
    is_Some (m !! battle_videoId b').
Proof.
  intros Hs. revert step. induction fuel as [|f IH]; intros step Hst Hl H k Hk; [lia|].
  simpl in H.
  destruct (lookup_in_range bs (Z.rem (start + step) (Z.of_nat (length bs))))
    as [b Eb]; [apply rem_range; lia|].
  rewrite Eb in H. case_bool_decide as Hd; [|discriminate].
  destruct (Z.eq_dec k step) as [->|Hne].
  - exists b. split; assumption.
  - apply (IH (step + 1)); try lia; assumption.
Qed.

Lemma scan_all_decided bs m start step fuel :
  Forall (fun b => is_Some (m !! battle_videoId b)) bs ->
  scanUnlabeled bs m start step fuel = None.
Proof.
  intros Hall. revert step. induction fuel as [|f IH]; intros step; simpl; [reflexivity|].
  destruct (bs !! _) as [b|] eqn:Eb; [|reflexivity].
  rewrite bool_decide_true; [apply IH|].
  rewrite Forall_lookup in Hall. exact (Hall _ _ Eb).
Qed.

(** The steps [1 .. len] from [start] visit every index. *)
Lemma steps_cover (start j len : Z) :
  0 <= start < len -> 0 <= j < len ->
  exists k, 1 <= k <= len /\ Z.rem (start + k) len = j /\ (k = len -> j = start).
Proof.
  intros Hs Hj.
  destruct (Z_lt_le_dec start j).
  - exists (j - start). split; [lia|]. split; [|lia].
    replace (start + (j - start)) with j by lia. apply Z.rem_small. lia.
  - exists (j - start + len). split; [lia|]. split.
    + replace (start + (j - start + len)) with (j + 1 * len) by lia.
      rewrite Z.rem_mod_nonneg by lia. rewrite Z.mod_add by lia. apply Z.mod_small. lia.
    + lia.
Qed.

Lemma goNextUnlabeled_target_some bs m c i :
  goNextUnlabeled_target bs m c = Some i ->
  exists b, 0 <= i < Z.of_nat (length bs) /\ bs !! Z.to_nat i = Some b /\
            m !! battle_videoId b = None.
Proof.
  unfold goNextUnlabeled_target. destruct (length bs =? 0)%nat eqn:Hl; [discriminate|].
  apply Nat.eqb_neq in Hl. intros H.
  destruct (scan_some _ _ _ _ _ _ H) as (k & b & Hk & Hi & Hb & Hn & _).
  exists b. split; [|split; assumption].
  rewrite Hi. apply rem_range; [|lia].
  pose proof (clamp_range (Z.of_nat (length bs)) c). lia.
Qed.

Lemma goNextUnlabeled_target_none bs m c :
  goNextUnlabeled_target bs m c = None ->
  Forall (fun b => is_Some (m !! battle_videoId b)) bs.
Proof.
  unfold goNextUnlabeled_target. destruct (length bs =? 0)%nat eqn:Hl.
  - apply Nat.eqb_eq in Hl. destruct bs; [constructor | discriminate].
  - apply Nat.eqb_neq in Hl. intros H.
    pose proof (clamp_range (Z.of_nat (length bs)) c ltac:(lia)) as Hc.
    apply Forall_lookup. intros j b Hj.
    assert (Hjr : 0 <= Z.of_nat j < Z.of_nat (length bs))
      by (apply lookup_lt_Some in Hj; lia).
    destruct (steps_cover _ _ _ Hc Hjr) as (k & Hk & Hrem & _).
    destruct (scan_none bs m (clampCursor (Z.of_nat (length bs)) c) 1 (length bs)
                ltac:(lia) ltac:(lia) ltac:(lia) H k ltac:(lia)) as (b' & Hb' & Hd).
    rewrite Hrem, Nat2Z.id, Hj in Hb'. injection Hb' as ->. exact Hd.
Qed.

Lemma current_in_range cfg st i :
  0 <= i < Z.of_nat (length (cfg_battles cfg)) ->
  s_cursor st = i -> current cfg st = cfg_battles cfg !! Z.to_nat i.
Proof.
  intros Hi Hc. unfold current. destruct (length _ =? 0)%nat eqn:Hl.
  - apply Nat.eqb_eq in Hl. lia.
  - rewrite Hc, clamp_id by exact Hi. reflexivity.
Qed.

Lemma current_some cfg st b :
  current cfg st = Some b ->
  let start := clampCursor (Z.of_nat (length (cfg_battles cfg))) (s_cursor st) in
  (0 < length (cfg_battles cfg))%nat /\ 0 <= start < Z.of_nat (length (cfg_battles cfg)) /\
  cfg_battles cfg !! Z.to_nat start = Some b.
Proof.
  unfold current. destruct (length _ =? 0)%nat eqn:Hl; [discriminate|].
  apply Nat.eqb_neq in Hl. intros H. split; [lia|]. split; [|exact H].
  apply clamp_range. lia.
Qed.

Lemma rem_not_start (start k len : Z) :
  0 <= start < len -> 1 <= k < len -> Z.rem (start + k) len <> start.
Proof.
  intros Hs Hk. rewrite Z.rem_mod_nonneg by lia.
  destruct (Z_lt_le_dec (start + k) len).
  - rewrite Z.mod_small by lia. lia.
  - replace (start + k) with ((start + k - len) + 1 * len) by lia.
    rewrite Z.mod_add by lia. rewrite Z.mod_small by lia. lia.
Qed.

(** When a battle other than the current one is undecided, the scan stops
    before coming back to the start index. *)
Lemma target_not_start bs m c j b' :
  (0 < length bs)%nat ->
  bs !! j = Some b' -> m !! battle_videoId b' = None ->
  Z.of_nat j <> clampCursor (Z.of_nat (length bs)) c ->
  exists i, goNextUnlabeled_target bs m c = Some i /\
            i <> clampCursor (Z.of_nat (length bs)) c.
Proof.
  intros Hl Hj Hn Hne.
  destruct (goNextUnlabeled_target bs m c) as [i|] eqn:Ht.
  - exists i. split; [reflexivity|].
    pose proof (clamp_range (Z.of_nat (length bs)) c ltac:(lia)) as Hc.
    assert (Hjr : 0 <= Z.of_nat j < Z.of_nat (length bs))
      by (apply lookup_lt_Some in Hj; lia).
    destruct (steps_cover _ _ _ Hc Hjr) as (kj & Hkj & Hremj & Hlast).
    unfold goNextUnlabeled_target in Ht.
    destruct (length bs =? 0)%nat eqn:Hl0; [discriminate|].
    destruct (scan_some _ _ _ _ _ _ Ht) as (k & b & Hk & Hi & Hb & Hbn & Hbefore).
    assert (kj <> Z.of_nat (length bs)) by (intros E; apply Hne, Hlast, E).
    assert (k <= kj).
    { destruct (Z_le_gt_dec k kj) as [|Hgt]; [assumption|].
      destruct (Hbefore kj ltac:(lia)) as (b'' & Hb'' & Hd).
      rewrite Hremj, Nat2Z.id, Hj in Hb''. injection Hb'' as <-.
      rewrite Hn in Hd. destruct Hd as [? Hd]. discriminate. }
    rewrite Hi. apply rem_not_start; lia.
  - apply goNextUnlabeled_target_none in Ht.
    rewrite Forall_lookup in Ht. destruct (Ht _ _ Hj) as [? Hd].
    rewrite Hn in Hd. discriminate.
Qed.

Lemma gtDone_cons b bs m :
  gtDone (b :: bs) m
  = ((if bool_decide (is_Some (m !! battle_videoId b)) then 1 else 0) + gtDone bs m)%nat.
Proof.
  unfold gtDone. rewrite !length_filter_sum. reflexivity.
Qed.

Lemma gtDone_agree bs m1 m2 :
  (forall b, b ∈ bs -> m1 !! battle_videoId b = m2 !! battle_videoId b) ->
  gtDone bs m1 = gtDone bs m2.
Proof.
  induction bs as [|b bs IH]; intros H; [reflexivity|].
  rewrite !gtDone_cons, H by (apply elem_of_cons; left; reflexivity).
  rewrite IH; [reflexivity|]. intros b' Hb'. apply H. apply elem_of_cons. right. exact Hb'.
Qed.

Lemma gtDone_insert bs m vid d :
  NoDup (map battle_videoId bs) -> vid ∈ map battle_videoId bs ->
  gtDone bs (<[vid := d]> m)
  = (gtDone bs m + if bool_decide (is_Some (m !! vid)) then 0 else 1)%nat.
Proof.
  induction bs as [|b bs IH]; intros Hnd Hin; [apply elem_of_nil in Hin; contradiction|].
  simpl in Hnd, Hin. apply NoDup_cons in Hnd as [Hnotin Hnd].
  rewrite !gtDone_cons.
  destruct (decide (battle_videoId b = vid)) as [<-|Hne].
  - rewrite lookup_insert_eq.
    rewrite (gtDone_agree bs (<[battle_videoId b := d]> m) m).
    + rewrite bool_decide_true by eauto.
      destruct (bool_decide (is_Some (m !! battle_videoId b))); lia.
    + intros b' Hb'. apply lookup_insert_ne. intros E. apply Hnotin.
      rewrite E. apply list_elem_of_fmap. eauto.
  - rewrite lookup_insert_ne by (intros E; apply Hne; symmetry; exact E).
    apply elem_of_cons in Hin as [E|Hin]; [congruence|].
    rewrite IH by assumption. lia.
Qed.

Lemma gtDone_delete bs m vid :
  NoDup (map battle_videoId bs) -> vid ∈ map battle_videoId bs ->
  (gtDone bs (delete vid m) + if bool_decide (is_Some (m !! vid)) then 1 else 0)%nat
  = gtDone bs m.
Proof.
  induction bs as [|b bs IH]; intros Hnd Hin; [apply elem_of_nil in Hin; contradiction|].
  simpl in Hnd, Hin. apply NoDup_cons in Hnd as [Hnotin Hnd].
  rewrite !gtDone_cons.
  destruct (decide (battle_videoId b = vid)) as [<-|Hne].
  - rewrite lookup_delete_eq.
    rewrite (gtDone_agree bs (delete (battle_videoId b) m) m).
    + rewrite bool_decide_false by (intros [? E]; discriminate).
      destruct (bool_decide (is_Some (m !! battle_videoId b))); lia.
    + intros b' Hb'. apply lookup_delete_ne. intros E. apply Hnotin.
      rewrite E. apply list_elem_of_fmap. eauto.
  - rewrite lookup_delete_ne by (intros E; apply Hne; symmetry; exact E).
    apply elem_of_cons in Hin as [E|Hin]; [congruence|].
    rewrite <- IH by assumption. lia.
Qed.

End Navigation.

(** [goNextUnlabeled] moves the cursor onto a battle without a decision
    whenever there is one, touching neither the map nor the dirty flag; when
    every battle is decided it does nothing. *)
Theorem goNextUnlabeled_spec (cfg : SessionConfig) (st : Session) :
  ((exists b, b ∈ cfg_battles cfg /\ s_map st !! battle_videoId b = None) ->
   exists b, current cfg (goNextUnlabeled cfg st) = Some b /\
             s_map st !! battle_videoId b = None /\
             s_map (goNextUnlabeled cfg st) = s_map st /\
             s_dirty (goNextUnlabeled cfg st) = s_dirty st) /\
  (Forall (fun b => is_Some (s_map st !! battle_videoId b)) (cfg_battles cfg) ->
   goNextUnlabeled cfg st = st).
Proof.
  unfold goNextUnlabeled.
  destruct (goNextUnlabeled_target (cfg_battles cfg) (s_map st) (s_cursor st)) as [i|] eqn:Ht.
  - destruct (goNextUnlabeled_target_some _ _ _ _ Ht) as (b & Hi & Hb & Hn).
    split.
    + intros _. exists b. split; [|split; [exact Hn | split; reflexivity]].
      rewrite (current_in_range cfg _ i Hi) by reflexivity. exact Hb.
    + intros Hall. rewrite Forall_lookup in Hall.
      destruct (Hall _ _ Hb) as [? Hd]. rewrite Hn in Hd. discriminate.
  - split; [|reflexivity].
    intros (b & Hb & Hn). apply goNextUnlabeled_target_none in Ht.
    rewrite Forall_forall in Ht. destruct (Ht b Hb) as [? Hd]. rewrite Hn in Hd. discriminate.
Qed.

(** From a cursor on a battle, [goPrev] and [goNext] keep it on a battle;
    [goPrev] undoes [goNext] below the last battle, and [goNext] does
    nothing on the last one. *)
Theorem goPrev_goNext (cfg : SessionConfig) (st : Session) :
  0 <= s_cursor st < Z.of_nat (length (cfg_battles cfg)) ->
  (0 <= s_cursor (goPrev st) < Z.of_nat (length (cfg_battles cfg)) /\
   0 <= s_cursor (goNext cfg st) < Z.of_nat (length (cfg_battles cfg))) /\
  (s_cursor st < Z.of_nat (length (cfg_battles cfg)) - 1 -> goPrev (goNext cfg st) = st) /\
  (s_cursor st = Z.of_nat (length (cfg_battles cfg)) - 1 -> goNext cfg st = st).
Proof.
  destruct st as [m c d]. unfold goPrev, goNext. simpl. intros Hc.
  split; [lia|]. split; intros H; f_equal; lia.
Qed.

Lemma goPrev_goNext_witness :
  (0 <= s_cursor (mkSession ∅ 0 false) < Z.of_nat (length (cfg_battles demo_cfg))) /\
  ((0 <= s_cursor (goPrev (mkSession ∅ 0 false)) < Z.of_nat (length (cfg_battles demo_cfg)) /\
    0 <= s_cursor (goNext demo_cfg (mkSession ∅ 0 false)) < Z.of_nat (length (cfg_battles demo_cfg))) /\
   (s_cursor (mkSession ∅ 0 false) < Z.of_nat (length (cfg_battles demo_cfg)) - 1 ->
    goPrev (goNext demo_cfg (mkSession ∅ 0 false)) = mkSession ∅ 0 false) /\
   (s_cursor (mkSession ∅ 0 false) = Z.of_nat (length (cfg_battles demo_cfg)) - 1 ->
    goNext demo_cfg (mkSession ∅ 0 false) = mkSession ∅ 0 false)).
Proof.
  split; [simpl; lia|]. apply goPrev_goNext. simpl. lia.
Defined.

(** [setWinner] records the chosen side's dancer key at time [now] for the
    current battle only, marks the session dirty, and moves the cursor
    exactly as [goNextUnlabeled] would on the map of before the click. *)
Theorem setWinner_spec (cfg : SessionConfig) (side : Side) (now : Z) (st : Session) (b : Battle) :
  current cfg st = Some b ->
  s_map (setWinner cfg side now st) !! battle_videoId b
    = Some (mkWinnerDecision (dancerKey (side_group side b)) now) /\
  (forall vid, vid <> battle_videoId b ->
     s_map (setWinner cfg side now st) !! vid = s_map st !! vid) /\
  s_dirty (setWinner cfg side now st) = true /\
  s_cursor (setWinner cfg side now st) = s_cursor (goNextUnlabeled cfg st).
Proof.
  intros Hb. unfold setWinner, goNextUnlabeled. rewrite Hb. simpl.
  split; [apply lookup_insert_eq|]. split.
  - intros vid Hne. apply lookup_insert_ne. intros E. apply Hne. symmetry. exact E.
  - split; [reflexivity|].
    destruct (goNextUnlabeled_target _ _ _); reflexivity.
Qed.

Lemma setWinner_spec_witness :
  current demo_cfg (mkSession ∅ 0 false) = Some (demo_battle "v1") /\
  s_map (setWinner demo_cfg Side1 7 (mkSession ∅ 0 false)) !! lit "v1"
    = Some (mkWinnerDecision (lit "d2") 7).
Proof.
  split; [reflexivity|].
  apply (setWinner_spec demo_cfg Side1 7 (mkSession ∅ 0 false) (demo_battle "v1")).
  reflexivity.
Defined.

(** With distinct video ids, [setWinner] raises the number of decided
    battles by one exactly when the current battle had no decision, and
    [clearWinner] removes the current battle's decision alone, lowering the
    count by one exactly when there was a decision, keeping the cursor and
    marking the session dirty. *)
Theorem setWinner_clearWinner_doneCount (cfg : SessionConfig) (side : Side) (now : Z)
    (st : Session) (b : Battle) :
  NoDup (map battle_videoId (cfg_battles cfg)) ->
  current cfg st = Some b ->
  let decided := bool_decide (is_Some (s_map st !! battle_videoId b)) in
  gtDone (cfg_battles cfg) (s_map (setWinner cfg side now st))
    = (gtDone (cfg_battles cfg) (s_map st) + if decided then 0 else 1)%nat /\
  s_map (clearWinner cfg st) = delete (battle_videoId b) (s_map st) /\
  s_cursor (clearWinner cfg st) = s_cursor st /\ s_dirty (clearWinner cfg st) = true /\
  (gtDone (cfg_battles cfg) (s_map (clearWinner cfg st)) + if decided then 1 else 0)%nat
    = gtDone (cfg_battles cfg) (s_map st).
Proof.
  intros Hnd Hb decided.
  destruct (current_some _ _ _ Hb) as (_ & _ & Hlk).
  assert (Hin : battle_videoId b ∈ map battle_videoId (cfg_battles cfg)).
  { apply list_elem_of_fmap. exists b. split; [reflexivity|].
    eapply list_elem_of_lookup_2. exact Hlk. }
  unfold setWinner, clearWinner. rewrite Hb. simpl.
  split; [apply gtDone_insert; assumption|].
  split; [reflexivity|]. split; [reflexivity|]. split; [reflexivity|].
  apply gtDone_delete; assumption.
Qed.

Lemma setWinner_clearWinner_doneCount_witness :
  NoDup (map battle_videoId (cfg_battles demo_cfg)) /\
  current demo_cfg (mkSession ∅ 0 false) = Some (demo_battle "v1") /\
  gtDone (cfg_battles demo_cfg) (s_map (setWinner demo_cfg Side0 1 (mkSession ∅ 0 false))) = 1%nat.
Proof.
  assert (Hnd : NoDup (map battle_videoId (cfg_battles demo_cfg)))
    by (apply (bool_decide_unpack _); vm_compute; exact I).
  split; [exact Hnd|]. split; [reflexivity|].
  destruct (setWinner_clearWinner_doneCount demo_cfg Side0 1 (mkSession ∅ 0 false)
              (demo_battle "v1") Hnd eq_refl) as [H _].
  rewrite H. reflexivity.
Defined.

(** Pressing "0" right after choosing a winner does not undo the choice when
    another battle was still undecided: the cursor has already moved to an
    undecided battle, so the clear removes nothing and the map keeps the new
    decision on top of the old map. *)
Theorem setWinner_then_clearWinner (cfg : SessionConfig) (side : Side) (now : Z)
    (st : Session) (b : Battle) :
  NoDup (map battle_videoId (cfg_battles cfg)) ->
  current cfg st = Some b ->
  (exists b', b' ∈ cfg_battles cfg /\ battle_videoId b' <> battle_videoId b /\
              s_map st !! battle_videoId b' = None) ->
  s_map (clearWinner cfg (setWinner cfg side now st))
    = <[battle_videoId b := mkWinnerDecision (dancerKey (side_group side b)) now]> (s_map st).
Proof.
  intros Hnd Hb (b' & Hb' & Hne & Hn).
  destruct (current_some _ _ _ Hb) as (Hl & Hs & Hlk).
  set (start := clampCursor (Z.of_nat (length (cfg_battles cfg))) (s_cursor st)) in *.
  apply list_elem_of_lookup_1 in Hb' as [j Hj].
  assert (Hjs : Z.of_nat j <> start).
  { intros E. apply Hne. rewrite <- E, Nat2Z.id, Hj in Hlk. injection Hlk as ->. reflexivity. }
  destruct (target_not_start _ _ (s_cursor st) _ _ Hl Hj Hn Hjs) as (i & Ht & Hi).
  destruct (goNextUnlabeled_target_some _ _ _ _ Ht) as (b2 & Hir & Hb2 & Hn2).
  unfold setWinner. rewrite Hb, Ht.
  unfold clearWinner.
  rewrite (current_in_range cfg _ i Hir) by reflexivity. rewrite Hb2. simpl.
  assert (Hv : battle_videoId b2 <> battle_videoId b).
  { intros E. apply Hi.
    assert (Hij : Z.to_nat i = Z.to_nat start).
    { apply (NoDup_lookup (map battle_videoId (cfg_battles cfg)) _ _ (battle_videoId b)); [exact Hnd| |].
      - rewrite list_lookup_fmap, Hb2. simpl. rewrite E. reflexivity.
      - rewrite list_lookup_fmap, Hlk. reflexivity. }
    lia. }
  rewrite delete_insert_ne by exact Hv.
  rewrite delete_id by exact Hn2. reflexivity.
Qed.

Lemma setWinner_then_clearWinner_witness :
  NoDup (map battle_videoId (cfg_battles demo_cfg)) /\
  current demo_cfg (mkSession ∅ 0 false) = Some (demo_battle "v1") /\
  s_map (clearWinner demo_cfg (setWinner demo_cfg Side0 3 (mkSession ∅ 0 false)))
    = <[lit "v1" := mkWinnerDecision (lit "d1") 3]> ∅.
Proof.
  assert (Hnd : NoDup (map battle_videoId (cfg_battles demo_cfg)))
    by (apply (bool_decide_unpack _); vm_compute; exact I).
  split; [exact Hnd|]. split; [reflexivity|].
  apply (setWinner_then_clearWinner demo_cfg Side0 3 (mkSession ∅ 0 false) (demo_battle "v1")
           Hnd eq_refl).
  exists (demo_battle "v2"). split; [apply elem_of_cons; right; apply elem_of_cons; left; reflexivity|].
  split; [discriminate | reflexivity].
Defined.

(** ** GT files, CSV rows, [pairKey] and [mod]: proofs *)

Section Misc.

Lemma str_lt_asym (a b : jsstr) : str_lt a b = true -> str_lt b a = false.
Proof.
  revert b. induction a as [|x a IH]; intros [|y b]; simpl; try easy.
  destruct (x <? y) eqn:E1.
  - intros _. apply Z.ltb_lt in E1.
    replace (y <? x) with false by (symmetry; apply Z.ltb_ge; lia). reflexivity.
  - destruct (y <? x) eqn:E2; [discriminate|].
    apply IH.
Qed.

Lemma first_present_cons row k ks v :
  row !! k = Some v -> first_present row (k :: ks) = Some v.
Proof. intros H. simpl. rewrite H. reflexivity. Qed.

End Misc.

(** Exporting the GT map and importing the file back in [FinalizeTab]
    restores that map, whatever map was loaded before. *)
Theorem exportGT_importGT_roundtrip (dataset : jsstr) (gtMap prev : gmap jsstr WinnerDecision)
    (now : Z) :
  importGT dataset (readJSONFile (exportGT dataset gtMap now)) prev = (gtMap, msg_gt_loaded).
Proof.
  unfold importGT, exportGT, readJSONFile. simpl.
  rewrite !bool_decide_true by reflexivity. reflexivity.
Qed.

(** [importGT] checks only the format and the dataset, not the account: the
    progress file exported by the GT labeling panel loads into [FinalizeTab]
    whoever the file's user is. *)
Theorem importGT_accepts_panel_export (cfg : SessionConfig) (st : Session) (now : Z)
    (prev : gmap jsstr WinnerDecision) :
  cfg_storageKey cfg = SK_gt -> cfg_fileFormat cfg = GT_FORMAT ->
  importGT (cfg_dataset cfg) (readJSONFile (fst (exportProgress cfg st now))) prev
  = (s_map st, msg_gt_loaded).
Proof.
  intros Hk Hf. unfold importGT, exportProgress, readJSONFile. rewrite Hk. simpl.
  rewrite Hf, !bool_decide_true by reflexivity. reflexivity.
Qed.

Lemma importGT_accepts_panel_export_witness :
  let cfg := mkSessionConfig (lit "/data/dancer_units.csv") demo_user
               [demo_battle "v1"] SK_gt GT_FORMAT in
  cfg_storageKey cfg = SK_gt /\ cfg_fileFormat cfg = GT_FORMAT /\
  importGT (cfg_dataset cfg)
    (readJSONFile (fst (exportProgress cfg (mkSession (<[lit "v1" := mkWinnerDecision (lit "d1") 5]> ∅) 0 true) 9)))
    ∅
  = (<[lit "v1" := mkWinnerDecision (lit "d1") 5]> ∅, msg_gt_loaded).
Proof.
  intros cfg. split; [reflexivity|]. split; [reflexivity|].
  apply importGT_accepts_panel_export; reflexivity.
Defined.

(** A missing file, a file with the wrong format or a file for another
    dataset leaves the GT map as it was and reports the failure. *)
Theorem importGT_rejects (dataset : jsstr) (json : option ProgressFile)
    (prev : gmap jsstr WinnerDecision) :
  (json = None \/ exists j, json = Some j /\
     (pf_format j <> Some GT_FORMAT \/ pf_dataset j <> Some dataset)) ->
  exists msg, importGT dataset json prev = (prev, msg_gt_import_failed ++ msg).
Proof.
  unfold importGT. intros [-> | (j & -> & [H|H])]; [eauto | |].
  - rewrite bool_decide_false by exact H. simpl. eauto.
  - case_bool_decide; simpl; [|eauto].
    rewrite bool_decide_false by exact H. simpl. eauto.
Qed.

Lemma importGT_rejects_witness :
  let j := exportGT (lit "/data/other.csv") ∅ 0 in
  (exists j', Some j = Some j' /\
     (pf_format j' <> Some GT_FORMAT \/ pf_dataset j' <> Some (lit "/data/dancer_units.csv"))) /\
  exists msg, importGT (lit "/data/dancer_units.csv") (Some j) (<[lit "v1" := mkWinnerDecision (lit "d1") 0]> ∅)
              = (<[lit "v1" := mkWinnerDecision (lit "d1") 0]> ∅, msg_gt_import_failed ++ msg).
Proof.
  intros j.
  assert (H : exists j', Some j = Some j' /\
     (pf_format j' <> Some GT_FORMAT \/ pf_dataset j' <> Some (lit "/data/dancer_units.csv"))).
  { exists j. split; [reflexivity|]. right. intros E. vm_compute in E. discriminate. }
  split; [exact H|]. apply importGT_rejects. right. exact H.
Defined.

(** A row kept by [fromCSVRow] has a non-empty unit id, namely the first
    unit-id column present, a non-empty raw clip path from which [src] is
    resolved, no [dancer], and no empty [dancerId] or [videoId]. *)
Theorem fromCSVRow_kept (resolveClipUrl : jsstr -> jsstr) (row : CSVRow) (u : Unit) (raw : jsstr) :
  fromCSVRow resolveClipUrl row = Some (u, raw) ->
  unit_id u <> [] /\
  first_present row [lit "unit_id"; lit "UNIT_ID"; lit "UnitId"] = Some (unit_id u) /\
  raw <> [] /\ unit_src u = resolveClipUrl raw /\ dancer u = None /\
  dancerId u <> Some [] /\ videoId u <> Some [].
Proof.
  intros H. unfold fromCSVRow in H.
  destruct (first_present row [lit "unit_id"; lit "UNIT_ID"; lit "UnitId"]) as [[|c uid]|] eqn:Eu;
    [simpl in H; discriminate| |simpl in H; discriminate].
  destruct (first_present row [lit "clip_path"; lit "CLIP_PATH"; lit "ClipPath"]) as [clip|];
  destruct (first_present row [lit "dancer_id"; lit "DANCER_ID"; lit "DancerId"]) as [d|];
  destruct (first_present row [lit "video_id"; lit "VIDEO_ID"; lit "VideoId"]) as [v|];
  try destruct clip as [|x cl]; simpl in H; try discriminate;
  injection H as <- <-; simpl;
  (split; [discriminate|]); (split; [reflexivity|]); (split; [discriminate|]);
  (split; [reflexivity|]); (split; [reflexivity|]);
  unfold nonempty_opt;
  try destruct d as [|? ?]; try destruct v as [|? ?]; simpl; split; discriminate.
Qed.

Lemma fromCSVRow_kept_witness :
  let row := <[lit "unit_id" := lit "u7"]> (<[lit "video_id" := lit ""]> ∅) in
  fromCSVRow (fun p => lit "/clips/" ++ p) row
    = Some (mkUnit (lit "u7") None None None (lit "/clips/u7.mp4"), lit "u7.mp4") /\
  videoId (mkUnit (lit "u7") None None None (lit "/clips/u7.mp4")) <> Some [].
Proof.
  intros row.
  assert (H : fromCSVRow (fun p => lit "/clips/" ++ p) row
              = Some (mkUnit (lit "u7") None None None (lit "/clips/u7.mp4"), lit "u7.mp4"))
    by (vm_compute; reflexivity).
  split; [exact H|].
  exact (proj2 (proj2 (proj2 (proj2 (proj2 (proj2 (fromCSVRow_kept _ _ _ _ H))))))).
Defined.

(** The [??] chains stop at the first column present, even when its cell is
    empty: an empty first unit-id column or an empty first clip-path column
    drops the row whatever the later spellings hold; with a unit id and no
    clip-path column at all the clip is [<unit_id>.mp4]. *)
Theorem fromCSVRow_fallbacks (resolveClipUrl : jsstr -> jsstr) (row : CSVRow) :
  (first_present row [lit "unit_id"; lit "UNIT_ID"; lit "UnitId"] = Some [] ->
   fromCSVRow resolveClipUrl row = None) /\
  (first_present row [lit "clip_path"; lit "CLIP_PATH"; lit "ClipPath"] = Some [] ->
   fromCSVRow resolveClipUrl row = None) /\
  (forall uid, uid <> [] ->
   first_present row [lit "unit_id"; lit "UNIT_ID"; lit "UnitId"] = Some uid ->
   first_present row [lit "clip_path"; lit "CLIP_PATH"; lit "ClipPath"] = None ->
   exists u, fromCSVRow resolveClipUrl row = Some (u, uid ++ lit ".mp4") /\ unit_id u = uid).
Proof.
  unfold fromCSVRow. split; [|split].
  - intros H. rewrite H. reflexivity.
  - intros H. rewrite H. simpl. rewrite orb_true_r. reflexivity.
  - intros [|c uid] Hne Hu Hc; [contradiction|]. rewrite Hu, Hc. simpl. eauto.
Qed.

(** [pairKey] does not depend on the order of its arguments. *)
Theorem pairKey_sym (a b : jsstr) : pairKey a b = pairKey b a.
Proof.
  unfold pairKey.
  destruct (str_lt a b) eqn:E1, (str_lt b a) eqn:E2; try reflexivity.
  - apply str_lt_asym in E1. congruence.
  - rewrite (str_lt_total a b E1 E2). reflexivity.
Qed.



(** ** QC metrics and agreement: proofs *)

Section Agreement.

Lemma q_ratio_bounds (a b : nat) :
  (a <= b)%nat -> (0 < b)%nat ->
  (0 <= inject_Z (Z.of_nat a) / inject_Z (Z.of_nat b) <= 1)%Q.
Proof.
  intros Hab Hb.
  assert (Hq : (0 < inject_Z (Z.of_nat b))%Q)
    by (change 0%Q with (inject_Z 0); rewrite <- Zlt_Qlt; lia).
  split.
  - apply Qle_shift_div_l; [exact Hq|]. rewrite Qmult_0_l.
    change 0%Q with (inject_Z 0). rewrite <- Zle_Qle. lia.
  - apply Qle_shift_div_r; [exact Hq|]. rewrite Qmult_1_l. rewrite <- Zle_Qle. lia.
Qed.

Lemma filter_length_mono {A} (P Q : A -> Prop) `{!forall x, Decision (P x)}
    `{!forall x, Decision (Q x)} (l : list A) :
  (forall x, Q x -> P x) -> (length (filter Q l) <= length (filter P l))%nat.
Proof.
  intros HQP. induction l as [|x l IH]; [reflexivity|].
  rewrite !filter_cons. case_decide as HQ; case_decide as HP; simpl; try lia.
  exfalso. apply HP, HQP, HQ.
Qed.

Let keyed (qa qb : gmap jsstr WinnerDecision) (vid : jsstr) : bool :=
  truthy (winnerDancerKey <$> qa !! vid) && truthy (winnerDancerKey <$> qb !! vid).

Let same (qa qb : gmap jsstr WinnerDecision) (vid : jsstr) : bool :=
  keyed qa qb vid && bool_decide (winnerDancerKey <$> qa !! vid = winnerDancerKey <$> qb !! vid).

Lemma agreement_fold (qa qb : gmap jsstr WinnerDecision) (Kp Sp : jsstr -> bool)
  (HK : forall vid, Kp vid = truthy (winnerDancerKey <$> qa !! vid) && truthy (winnerDancerKey <$> qb !! vid))
  (HS : forall vid, Sp vid = Kp vid && bool_decide (winnerDancerKey <$> qa !! vid = winnerDancerKey <$> qb !! vid))
  (l : list jsstr) (a b : nat) :
  fold_left
    (fun '(both, agree) vid =>
       let wa := winnerDancerKey <$> qa !! vid in
       let wb := winnerDancerKey <$> qb !! vid in
       if negb (truthy wa) || negb (truthy wb) then (both, agree)
       else (S both, if bool_decide (wa = wb) then S agree else agree)) l (a, b)
  = ((a + sum_list_with (fun vid => if Kp vid then 1 else 0) l)%nat,
     (b + sum_list_with (fun vid => if Sp vid then 1 else 0) l)%nat).
Proof.
  revert a b. induction l as [|vid l IH]; intros a b; simpl; [f_equal; lia|].
  rewrite (HS vid), (HK vid).
  destruct (truthy (winnerDancerKey <$> qa !! vid)), (truthy (winnerDancerKey <$> qb !! vid));
    simpl; rewrite IH; try (f_equal; lia).
  destruct (bool_decide _); f_equal; lia.
Qed.

Lemma sum_keys_size (g : jsstr -> bool) (m : gmap jsstr WinnerDecision) :
  sum_list_with (fun vid => if g vid then 1%nat else 0%nat) (map fst (map_to_list m))
  = size (filter (fun kv : jsstr * WinnerDecision => g kv.1) m).
Proof.
  rewrite map_size_filter_list, (length_filter_sum (fun kv : jsstr * WinnerDecision => g kv.1)).
  induction (map_to_list m) as [|[k v] l IH]; simpl; [reflexivity|]. rewrite IH. reflexivity.
Qed.

Lemma size_filter_swap (g : jsstr -> bool) (qa qb : gmap jsstr WinnerDecision) :
  (forall k, g k = true -> is_Some (qa !! k) /\ is_Some (qb !! k)) ->
  size (filter (fun kv : jsstr * WinnerDecision => g kv.1) qa)
  = size (filter (fun kv : jsstr * WinnerDecision => g kv.1) qb).
Proof.
  intros Hg. rewrite <- !(size_dom (D := gset jsstr)). f_equal.
  apply leibniz_equiv. apply set_equiv. intros k. rewrite !elem_of_dom.
  split; intros [x Hx]; apply map_lookup_filter_Some in Hx as [Hl Hk]; simpl in Hk;
    destruct (Hg k ltac:(destruct (g k); [reflexivity|contradiction])) as [[xa Ha] [xb Hb]];
    eexists; apply map_lookup_filter_Some_2; eassumption.
Qed.

Lemma size_filter_le (g : jsstr -> bool) (m : gmap jsstr WinnerDecision) :
  (size (filter (fun kv : jsstr * WinnerDecision => g kv.1) m) <= size m)%nat.
Proof.
  rewrite map_size_filter_list, <- length_map_to_list. apply length_filter.
Qed.

Lemma agreement_counts_eq qa qb :
  agreement_counts qa qb
  = (size (filter (fun kv : jsstr * WinnerDecision => keyed qa qb kv.1) qa),
     size (filter (fun kv : jsstr * WinnerDecision => same qa qb kv.1) qa)).
Proof.
  unfold agreement_counts.
  rewrite (agreement_fold qa qb (keyed qa qb) (same qa qb)) by reflexivity.
  rewrite !sum_keys_size. reflexivity.
Qed.

Lemma keyed_some qa qb k :
  keyed qa qb k = true -> is_Some (qa !! k) /\ is_Some (qb !! k).
Proof.
  unfold keyed. destruct (qa !! k), (qb !! k); simpl; intros H;
    first [split; eexists; reflexivity | rewrite ?andb_false_r in H; discriminate].
Qed.

Lemma agreement_counts_props qa qb :
  agreement_counts qa qb = agreement_counts qb qa /\
  ((agreement_counts qa qb).2 <= (agreement_counts qa qb).1 /\
   (agreement_counts qa qb).1 <= size qa /\ (agreement_counts qa qb).1 <= size qb)%nat.
Proof.
  rewrite !agreement_counts_eq. simpl.
  assert (Hk : forall k, keyed qa qb k = keyed qb qa k)
    by (intros k; unfold keyed; apply andb_comm).
  assert (Hs : forall k, same qa qb k = same qb qa k).
  { intros k. unfold same. rewrite Hk. f_equal.
    apply bool_decide_ext. split; intros E; symmetry; exact E. }
  split; [|split; [|split]].
  - f_equal.
    + rewrite (size_filter_swap (keyed qa qb) qa qb (keyed_some qa qb)).
      f_equal. apply map_filter_ext. intros k x _. rewrite Hk. reflexivity.
    + rewrite (size_filter_swap (same qa qb) qa qb).
      * f_equal. apply map_filter_ext. intros k x _. rewrite Hs. reflexivity.
      * intros k Hsk. apply keyed_some. unfold same in Hsk.
        destruct (keyed qa qb k); [reflexivity | discriminate].
  - rewrite !map_size_filter_list. apply filter_length_mono.
    intros [k x]. simpl. unfold same. destruct (keyed qa qb k); simpl; tauto.
  - apply size_filter_le.
  - rewrite (size_filter_swap (keyed qa qb) qa qb (keyed_some qa qb)). apply size_filter_le.
Qed.

End Agreement.

Lemma index_pairs_length {A} (l : list A) :
  (2 * length (index_pairs l) = length l * (length l - 1))%nat.
Proof.
  induction l as [|a l IH]; [reflexivity|].
  simpl. rewrite length_app, length_map.
  destruct (length l) as [|k]; simpl in *; nia.
Qed.

Lemma index_pairs_elem {A} (l : list A) (a b : A) :
  (a, b) ∈ index_pairs l -> a ∈ l /\ b ∈ l.
Proof.
  induction l as [|x l IH]; simpl; intros H; [apply elem_of_nil in H; contradiction|].
  apply elem_of_app in H as [H|H].
  - apply list_elem_of_fmap in H as (y & E & Hy). injection E as -> ->.
    split; [apply elem_of_cons; left; reflexivity | apply elem_of_cons; right; exact Hy].
  - destruct (IH H) as [Ha Hb]. split; apply elem_of_cons; right; assumption.
Qed.

Lemma omap_length_all {A B} (f : A -> option B) (l : list A) :
  (forall x, x ∈ l -> is_Some (f x)) -> length (omap f l) = length l.
Proof.
  induction l as [|x l IH]; intros H; [reflexivity|].
  destruct (H x ltac:(apply elem_of_cons; left; reflexivity)) as [y Hy].
  assert (E : omap f (x :: l) = y :: omap f l) by (simpl; rewrite Hy; reflexivity).
  rewrite E. simpl. rewrite IH; [reflexivity|]. intros z Hz. apply H. apply elem_of_cons. right. exact Hz.
Qed.

Lemma find_file_some (qcFiles : list QCProgressFile) (id : jsstr) :
  id ∈ js_sort (map (fun f => user_id (qcf_user f)) qcFiles) ->
  is_Some (find (fun f => bool_decide (user_id (qcf_user f) = id)) qcFiles).
Proof.
  rewrite js_sort_perm. intros H. apply list_elem_of_fmap in H as (f & -> & Hf).
  destruct (find _ qcFiles) eqn:E; [eauto|].
  apply list_elem_of_In in Hf. pose proof (find_none _ _ E f Hf) as Hn.
  cbv beta in Hn. rewrite bool_decide_true in Hn by reflexivity. discriminate.
Qed.

(** [qcAgreement] compares every two loaded QC files once: n files give
    n(n-1)/2 entries. Each entry names two loaded files; its counts do not
    depend on which of the two files' keys the loop walks, [agree <= both],
    [both] is at most the size of either file's decision set, and [rate] is
    a ratio in [0, 1], or [null] exactly when [both = 0]. *)
Theorem qcAgreement_pairs (qcFiles : list QCProgressFile) :
  (2 * length (qcAgreement qcFiles) = length qcFiles * (length qcFiles - 1))%nat /\
  Forall (fun p =>
    exists fa fb, fa ∈ qcFiles /\ fb ∈ qcFiles /\
      user_id (qcf_user fa) = ap_a p /\ user_id (qcf_user fb) = ap_b p /\
      (ap_both p, ap_agree p) = agreement_counts (default ∅ (qcf_qc fa)) (default ∅ (qcf_qc fb)) /\
      (ap_both p, ap_agree p) = agreement_counts (default ∅ (qcf_qc fb)) (default ∅ (qcf_qc fa)) /\
      (ap_agree p <= ap_both p)%nat /\
      (ap_both p <= size (default ∅ (qcf_qc fa)))%nat /\
      (ap_both p <= size (default ∅ (qcf_qc fb)))%nat /\
      (ap_rate p = None <-> ap_both p = 0%nat) /\
      (forall q, ap_rate p = Some q -> 0 <= q <= 1)%Q) (qcAgreement qcFiles).
Proof.
  split.
  - unfold qcAgreement. rewrite omap_length_all.
    + rewrite index_pairs_length.
      rewrite (Permutation_length (js_sort_perm _)), length_map. reflexivity.
    + intros [a b] Hab. apply index_pairs_elem in Hab as [Ha Hb].
      destruct (find_file_some _ _ Ha) as [fa Hfa].
      destruct (find_file_some _ _ Hb) as [fb Hfb].
      rewrite Hfa, Hfb. destruct (agreement_counts _ _). eauto.
  - apply Forall_forall. intros p Hp. unfold qcAgreement in Hp.
    apply list_elem_of_omap in Hp as ([a b] & _ & Hf).
    destruct (find _ qcFiles) as [fa|] eqn:Ea in Hf; [|discriminate].
    destruct (find _ qcFiles) as [fb|] eqn:Eb in Hf; [|discriminate].
    pose proof (agreement_counts_props (default ∅ (qcf_qc fa)) (default ∅ (qcf_qc fb)))
      as (Hsym & Hle & Hsa & Hsb).
    destruct (agreement_counts (default ∅ (qcf_qc fa)) (default ∅ (qcf_qc fb)))
      as [both agree] eqn:Ec.
    injection Hf as <-. simpl in *.
    apply find_some in Ea as [Ina Ea]. apply find_some in Eb as [Inb Eb].
    apply bool_decide_eq_true in Ea, Eb.
    exists fa, fb.
    split; [apply list_elem_of_In; exact Ina|]. split; [apply list_elem_of_In; exact Inb|].
    split; [exact Ea|]. split; [exact Eb|]. split; [symmetry; exact Ec|]. split; [exact Hsym|].
    split; [exact Hle|]. split; [exact Hsa|]. split; [exact Hsb|].
    destruct (0 <? both)%nat eqn:Hb.
    + apply Nat.ltb_lt in Hb. split.
      * split; [discriminate | lia].
      * intros q Hq. injection Hq as <-. apply q_ratio_bounds; assumption.
    + apply Nat.ltb_ge in Hb. split; [split; [lia | reflexivity] | discriminate].
Qed.

(** ** Units inside the built battles: proofs *)

Section BattleUnits.

Lemma group_push_get {V} (k k' : jsstr) (v : V) (g : list (jsstr * list V)) :
  default [] (group_get k (group_push k' v g))
  = default [] (group_get k g) ++ (if bool_decide (k = k') then [v] else []).
Proof.
  induction g as [|[k0 vs] g IH]; simpl.
  - case_bool_decide; reflexivity.
  - destruct (decide (k' = k0)) as [->|Hne1].
    + rewrite (bool_decide_true (k0 = k0)) by reflexivity. simpl.
      destruct (decide (k = k0)) as [->|Hne2].
      * rewrite !bool_decide_true by reflexivity. reflexivity.
      * rewrite !bool_decide_false by exact Hne2. rewrite app_nil_r. reflexivity.
    + rewrite (bool_decide_false (k' = k0)) by exact Hne1. simpl.
      destruct (decide (k = k0)) as [->|Hne2].
      * rewrite (bool_decide_true (k0 = k0)) by reflexivity.
        rewrite (bool_decide_false (k0 = k')) by congruence. simpl.
        rewrite app_nil_r. reflexivity.
      * rewrite (bool_decide_false (k = k0)) by exact Hne2. exact IH.
Qed.

Lemma group_fold_get {V} (f : V -> jsstr) (k : jsstr) (l : list V) acc :
  default [] (group_get k (fold_left (fun acc u => group_push (f u) u acc) l acc))
  = default [] (group_get k acc) ++ filter (fun u => f u = k) l.
Proof.
  revert acc. induction l as [|u l IH]; intros acc; simpl; [rewrite app_nil_r; reflexivity|].
  rewrite IH, group_push_get, filter_cons, <- app_assoc.
  case_bool_decide as E; case_decide as E'; simpl; try reflexivity; congruence.
Qed.

Lemma group_fold_keys {V} (f : V -> jsstr) (k : jsstr) (l : list V) acc :
  k ∈ map fst (fold_left (fun acc u => group_push (f u) u acc) l acc) ->
  k ∈ map fst acc \/ exists u, u ∈ l /\ f u = k.
Proof.
  revert acc. induction l as [|u l IH]; intros acc Hk; simpl in Hk; [left; exact Hk|].
  destruct (IH _ Hk) as [Hin | (u' & Hu' & E)].
  - apply group_push_keys in Hin as [->|Hin]; [right | left; exact Hin].
    exists u. split; [apply elem_of_cons; left|]; reflexivity.
  - right. exists u'. split; [apply elem_of_cons; right|]; assumption.
Qed.

Lemma group_get_key {V} (k : jsstr) (g : list (jsstr * list V)) (vs : list V) :
  group_get k g = Some vs -> k ∈ map fst g.
Proof.
  induction g as [|[k0 ws] g IH]; simpl; [discriminate|].
  case_bool_decide as E; intros H.
  - subst. apply elem_of_cons. left. reflexivity.
  - apply elem_of_cons. right. apply IH, H.
Qed.

Lemma video_fold_get (vid : jsstr) (us : list Unit) acc :
  vid <> [] ->
  default [] (group_get vid
    (fold_left
       (fun acc u =>
          match videoId u with
          | Some vid => if truthy (Some vid) then group_push vid u acc else acc
          | None => acc
          end) us acc))
  = default [] (group_get vid acc) ++ filter (fun u => videoId u = Some vid) us.
Proof.
  intros Hv. revert acc. induction us as [|u us IH]; intros acc; simpl; [rewrite app_nil_r; reflexivity|].
  rewrite IH, filter_cons.
  destruct (videoId u) as [[|c v]|] eqn:Eu; cbn [truthy].
  - rewrite decide_False by congruence. reflexivity.
  - rewrite group_push_get, <- app_assoc.
    case_bool_decide as E; case_decide as E'; simpl; try reflexivity; congruence.
  - rewrite decide_False by congruence. reflexivity.
Qed.

Lemma video_fold_keys (us : list Unit) acc :
  (forall k, k ∈ map fst acc -> k <> []) ->
  forall k, k ∈ map fst
    (fold_left
       (fun acc u =>
          match videoId u with
          | Some vid => if truthy (Some vid) then group_push vid u acc else acc
          | None => acc
          end) us acc) -> k <> [].
Proof.
  revert acc. induction us as [|u us IH]; intros acc Hacc; simpl; [exact Hacc|].
  apply IH. destruct (videoId u) as [[|c v]|]; simpl; try exact Hacc.
  intros k Hk. apply group_push_keys in Hk as [->|Hk]; [discriminate | apply Hacc, Hk].
Qed.

Lemma filter_split2 {A} (f : A -> jsstr) (k0 k1 : jsstr) (l : list A) :
  k0 <> k1 -> (forall u, u ∈ l -> f u = k0 \/ f u = k1) ->
  filter (fun u => f u = k0) l ++ filter (fun u => f u = k1) l ≡ₚ l.
Proof.
  intros Hne. induction l as [|u l IH]; intros H; [reflexivity|].
  rewrite !filter_cons.
  assert (IH' : filter (fun u => f u = k0) l ++ filter (fun u => f u = k1) l ≡ₚ l)
    by (apply IH; intros x Hx; apply H, elem_of_cons; right; exact Hx).
  destruct (H u ltac:(apply elem_of_cons; left; reflexivity)) as [E|E].
  - rewrite decide_True by exact E. rewrite decide_False by congruence.
    simpl. rewrite IH'. reflexivity.
  - rewrite decide_False by congruence. rewrite decide_True by exact E.
    rewrite <- Permutation_middle. rewrite IH'. reflexivity.
Qed.

Lemma str_lt_irrefl (a : jsstr) : str_lt a a = false.
Proof. induction a as [|x a IH]; simpl; [reflexivity|]. rewrite Z.ltb_irrefl. exact IH. Qed.

End BattleUnits.

(** Battle construction loses and duplicates no unit: the two groups of a
    built battle hold, together, exactly the units whose [videoId] is the
    battle's video, each group is non-empty, and every unit of a group has
    the group's dancer key. *)
Theorem buildBattles_units (us : list Unit) (b : Battle) :
  b ∈ fst (buildBattles us) ->
  units (fst (dancers b)) ++ units (snd (dancers b))
    ≡ₚ filter (fun u => videoId u = Some (battle_videoId b)) us /\
  Forall (fun u => dancer_key u = dancerKey (fst (dancers b))) (units (fst (dancers b))) /\
  Forall (fun u => dancer_key u = dancerKey (snd (dancers b))) (units (snd (dancers b))) /\
  units (fst (dancers b)) <> [] /\ units (snd (dancers b)) <> [].
Proof.
  intros Hb. unfold buildBattles in Hb. rewrite battle_fold in Hb. simpl in Hb.
  apply list_elem_of_omap in Hb as (vid & Hvid & Hbo).
  pose proof (battle_of_some _ _ _ Hbo) as (Hid & _ & Hlt & Hperm).
  set (byVid := group_by_video us) in *.
  assert (Hvne : vid <> []).
  { rewrite js_sort_perm in Hvid. unfold byVid, group_by_video in Hvid.
    apply (video_fold_keys us [] ltac:(intros k Hk; apply elem_of_nil in Hk; contradiction)).
    exact Hvid. }
  assert (Harr : default [] (group_get vid byVid) = filter (fun u => videoId u = Some vid) us).
  { unfold byVid, group_by_video. rewrite video_fold_get by exact Hvne. reflexivity. }
  unfold battle_of in Hbo.
  destruct (negb _); [discriminate|]. injection Hbo as <-. simpl in *.
  unfold dancer_keys_of in Hperm. rewrite Harr in Hperm, Hlt |- *.
  set (arr := filter (fun u => videoId u = Some vid) us) in *.
  set (k0 := nth 0 (js_sort (map fst (group_by_dancer arr))) []) in *.
  set (k1 := nth 1 (js_sort (map fst (group_by_dancer arr))) []) in *.
  assert (Hget : forall k, default [] (group_get k (group_by_dancer arr))
                           = filter (fun u => dancer_key u = k) arr).
  { intros k. unfold group_by_dancer. rewrite group_fold_get. reflexivity. }
  assert (Hne : k0 <> k1) by (intros E; rewrite E, str_lt_irrefl in Hlt; discriminate).
  assert (Hkeys : forall k, k ∈ map fst (group_by_dancer arr) -> k = k0 \/ k = k1).
  { intros k Hk. rewrite <- Hperm in Hk. apply elem_of_cons in Hk as [->|Hk]; [left; reflexivity|].
    apply elem_of_cons in Hk as [->|Hk]; [right; reflexivity | apply elem_of_nil in Hk; contradiction]. }
  assert (Hnonempty : forall k, k ∈ map fst (group_by_dancer arr) ->
                      filter (fun u => dancer_key u = k) arr <> []).
  { intros k Hk. unfold group_by_dancer in Hk. apply group_fold_keys in Hk as [Hk|(u & Hu & E)].
    - apply elem_of_nil in Hk. contradiction.
    - intros Hnil. assert (Hin : u ∈ filter (fun u => dancer_key u = k) arr)
        by (apply list_elem_of_filter; split; assumption).
      rewrite Hnil in Hin. apply elem_of_nil in Hin. exact Hin. }
  rewrite !Hget.
  split; [|split; [|split; [|split]]].
  - apply filter_split2; [exact Hne|]. intros u Hu.
    apply Hkeys.
    assert (Hin : u ∈ filter (fun u' => dancer_key u' = dancer_key u) arr)
      by (apply list_elem_of_filter; split; [reflexivity | exact Hu]).
    rewrite <- Hget in Hin.
    destruct (group_get (dancer_key u) (group_by_dancer arr)) as [vs|] eqn:Eg.
    + exact (group_get_key _ _ _ Eg).
    + simpl in Hin. apply elem_of_nil in Hin. contradiction.
  - apply Forall_forall. intros u Hu. apply list_elem_of_filter in Hu as [E _]. exact E.
  - apply Forall_forall. intros u Hu. apply list_elem_of_filter in Hu as [E _]. exact E.
  - apply Hnonempty. rewrite <- Hperm. apply elem_of_cons. left. reflexivity.
  - apply Hnonempty. rewrite <- Hperm. apply elem_of_cons. right. apply elem_of_cons. left. reflexivity.
Qed.

Lemma buildBattles_units_witness :
  let us := [mkUnit (lit "u3") None (Some (lit "d2")) (Some (lit "v1")) [];
             mkUnit (lit "u1") None (Some (lit "d1")) (Some (lit "v1")) [];
             mkUnit (lit "u5") None (Some (lit "d1")) (Some (lit "v1")) [];
             mkUnit (lit "u2") None (Some (lit "d1")) (Some (lit "v2")) []] in
  let b := mkBattle (lit "v1")
             (mkDancerGroup (lit "d1") [mkUnit (lit "u1") None (Some (lit "d1")) (Some (lit "v1")) [];
                                       mkUnit (lit "u5") None (Some (lit "d1")) (Some (lit "v1")) []],
              mkDancerGroup (lit "d2") [mkUnit (lit "u3") None (Some (lit "d2")) (Some (lit "v1")) []]) in
  b ∈ fst (buildBattles us) /\
  units (fst (dancers b)) ++ units (snd (dancers b))
    ≡ₚ filter (fun u => videoId u = Some (battle_videoId b)) us.
Proof.
  intros us b.
  assert (Hb : b ∈ fst (buildBattles us)).
  { vm_compute. apply elem_of_cons. left. reflexivity. }
  split; [exact Hb|].
  apply (buildBattles_units us b Hb).
Defined.

(** The QC metrics are consistent counts: [correct <= comparable <= labeled],
    [comparable] never exceeds the size of the GT map, [accuracy] is [null]
    exactly when nothing is comparable, and otherwise lies in [0, 1]. *)
Theorem qcMetric_bounds (gtMap : gmap jsstr WinnerDecision) (f : QCProgressFile) :
  let r := qcMetric gtMap f in
  qm_userId r = user_id (qcf_user f) /\
  qm_labeled r = size (default ∅ (qcf_qc f)) /\
  (qm_correct r <= qm_comparable r <= qm_labeled r)%nat /\
  (qm_comparable r <= size gtMap)%nat /\
  (qm_accuracy r = None <-> qm_comparable r = 0%nat) /\
  (forall q, qm_accuracy r = Some q -> 0 <= q <= 1)%Q.
Proof.
  intros r. unfold r, qcMetric. set (qc := default ∅ (qcf_qc f)).
  unfold qc_counts. rewrite qc_counts_fold. simpl.
  set (cmp := length (filter (fun kv => is_Some (gtMap !! kv.1)) (map_to_list qc))).
  set (cor := length (filter (fun kv => option_map winnerDancerKey (gtMap !! kv.1)
                                         = Some (winnerDancerKey kv.2)) (map_to_list qc))).
  assert (Hcc : (cor <= cmp)%nat).
  { apply filter_length_mono. intros [k v]. simpl.
    destruct (gtMap !! k); simpl; [intros _; eexists; reflexivity | discriminate]. }
  assert (Hcl : (cmp <= size qc)%nat).
  { rewrite <- length_map_to_list. apply length_filter. }
  assert (Hcg : (cmp <= size gtMap)%nat).
  { unfold cmp. rewrite <- map_size_filter_list.
    rewrite <- !(size_dom (D := gset jsstr)). apply subseteq_size.
    intros k. rewrite !elem_of_dom. intros [x Hx].
    apply map_lookup_filter_Some in Hx as [_ Hp]. exact Hp. }
  split; [reflexivity|]. split; [reflexivity|].
  split; [lia|]. split; [exact Hcg|]. split.
  - destruct (0 <? cmp)%nat eqn:E; [apply Nat.ltb_lt in E | apply Nat.ltb_ge in E];
      split; intros H; try discriminate; try reflexivity; lia.
  - intros q Hq. destruct (0 <? cmp)%nat eqn:E; [|discriminate].
    injection Hq as <-. apply Nat.ltb_lt in E. apply q_ratio_bounds; assumption.
Qed.

(** [gtComplete] holds exactly when there is at least one battle and every
    battle has a GT decision; an empty battle list is never complete. *)
Theorem gtComplete_iff (battles : list Battle) (gtMap : gmap jsstr WinnerDecision) :
  gtComplete battles gtMap = true <->
  battles <> [] /\ forall b, b ∈ battles -> is_Some (gtMap !! battle_videoId b).
Proof.
  unfold gtComplete. rewrite andb_true_iff, Nat.ltb_lt, Nat.eqb_eq. split.
  - intros [Hl Hd]. split.
    + intros ->. simpl in Hl. lia.
    + apply gtDone_full, Hd.
  - intros [Hne Hall]. split.
    + destruct battles; [contradiction | simpl; lia].
    + apply gtDone_all, Hall.
Qed.
